(** * Mutators of agent programs (biomakerca/mutators.py)

    A shallow embedding of [BasicMutator], [RandomlyAdaptiveMutator],
    [valuenoise1d] and [CrossOverSexualMutator].

    Numbers.  The arrays of the source hold float32 values.  They are
    modelled here by canonical rationals [Qc]: arithmetic is exact, so
    rounding, overflow, NaN and signed zeros are outside the model.

    Arrays.  An n-dimensional array is a shape together with its elements in
    row-major order.  The 1-D arrays that [initialize] and [mutate] require
    are plain lists.

    Randomness.  [jax.random] is an external library: its primitives are the
    fields of a record [JaxRandom], and what the theorems need from them is
    the predicate [JaxRandomOk]. *)

From Stdlib Require Import Bool String.
From Stdlib Require Import QArith Qcanon Lqa.
From Stdlib Require Import List Arith Lia.
Import ListNotations.

Set Implicit Arguments.
Local Open Scope nat_scope.
Local Open Scope list_scope.

(** ** Errors

    A Python exception is [None]. *)

Notation "x <- a ;; b" :=
  (match a with Some x => b | None => None end)
  (right associativity, at level 60, a at next level).

Notation "' pat <- a ;; b" :=
  (match a with Some pat => b | None => None end)
  (right associativity, at level 60, pat pattern, a at next level).

(** ** N-dimensional arrays *)

Section NdArray.

Variable A : Type.

Record ndarray : Type := mk_nd { shape : list nat; data : list A }.

(** Number of elements of an array of shape [s]. *)
Definition size_of (s : list nat) : nat := fold_right Nat.mul 1 s.

Definition well_formed (a : ndarray) : Prop :=
  length (data a) = size_of (shape a).

(** A 1-D array. *)
Definition vec (l : list A) : ndarray := mk_nd [length l] l.

(** [a.shape[-1]]: IndexError on a 0-d array. *)
Definition last_dim (a : ndarray) : option nat :=
  match shape a with
  | [] => None
  | d :: s => Some (last s d)
  end.

(** [a.shape[:-1]] *)
Definition lead_dims (a : ndarray) : list nat := removelast (shape a).

(** [a.reshape(s)]: the element count must not change; the row-major
    order of the elements is kept. *)
Definition reshape (s : list nat) (a : ndarray) : option ndarray :=
  if size_of s =? size_of (shape a) then Some (mk_nd s (data a)) else None.

(** The first [n] rows of width [d] of a row-major element list. *)
Fixpoint rows (d n : nat) (l : list A) : list (list A) :=
  match n with
  | O => []
  | S n' => firstn d l :: rows d n' (skipn d l)
  end.

(** The rows of [a] along its last axis. *)
Definition rows_of (a : ndarray) : list (list A) :=
  match last_dim a with
  | None => []
  | Some d => rows d (size_of (lead_dims a)) (data a)
  end.

(** [jp.split(a, k, axis=-1)]: [k] sections of equal width along the last
    axis; ValueError when the axis is not divisible by [k]. *)
Definition split_last (k : nat) (a : ndarray) : option (list ndarray) :=
  d <- last_dim a ;;
  if (k =? 0) || negb (d mod k =? 0) then None
  else
    let w := d / k in
    Some (map (fun j =>
                 mk_nd (lead_dims a ++ [w])
                       (flat_map (fun r => firstn w (skipn (j * w) r))
                                 (rows_of a)))
              (seq 0 k)).

(** [a[..., 0]]: IndexError when the last axis is empty. *)
Definition index_last0 (a : ndarray) : option ndarray :=
  d <- last_dim a ;;
  if d =? 0 then None
  else Some (mk_nd (lead_dims a) (flat_map (firstn 1) (rows_of a))).

(** [jp.column_stack((p, sd))] on two 1-D arrays: an array of shape
    (L, 2) whose row [i] is (p[i], sd[i]); the lengths must agree. *)
Fixpoint interleave (p sd : list A) : list A :=
  match p, sd with
  | x :: p', y :: sd' => x :: y :: interleave p' sd'
  | _, _ => []
  end.

Definition column_stack (p sd : list A) : option ndarray :=
  if length p =? length sd
  then Some (mk_nd [length p; 2] (interleave p sd))
  else None.

(** [jp.ravel] *)
Definition ravel (a : ndarray) : list A := data a.

(** Elements at even and at odd positions. *)
Fixpoint evens (l : list A) : list A :=
  match l with
  | x :: _ :: l' => x :: evens l'
  | [x] => [x]
  | [] => []
  end.

Fixpoint odds (l : list A) : list A :=
  match l with
  | _ :: y :: l' => y :: odds l'
  | _ => []
  end.

End NdArray.

Arguments mk_nd {A} _ _.
Arguments vec {A} _.

(** ** Numbers and element-wise operations *)

Local Open Scope Qc_scope.

Definition of_nat (n : nat) : Qc := Q2Qc (inject_Z (Z.of_nat n)).

(** [x < y] as a boolean. *)
Definition Qcltb (x y : Qc) : bool :=
  match x ?= y with
  | Lt => true
  | _ => false
  end.

(** [b.astype(jp.float32)]; also the value of a boolean in arithmetic. *)
Definition astype_float (b : bool) : Qc := if b then 1 else 0.

Definition maximum (x y : Qc) : Qc := if Qcltb x y then y else x.
Definition minimum (x y : Qc) : Qc := if Qcltb y x then y else x.

(** [x.clip(lo, hi)] is [minimum(hi, maximum(lo, x))]. *)
Definition clip (lo hi x : Qc) : Qc := minimum hi (maximum lo x).

Section Elementwise.

Variables A B C : Type.

Fixpoint map2 (f : A -> B -> C) (x : list A) (y : list B) : list C :=
  match x, y with
  | a :: x', b :: y' => f a b :: map2 f x' y'
  | _, _ => []
  end.

(** A binary operation on two 1-D arrays, with the broadcasting rule:
    equal lengths, or one of the two has length 1; anything else raises. *)
Definition ew (f : A -> B -> C) (x : list A) (y : list B)
  : option (list C) :=
  if (length x =? length y)%nat then Some (map2 f x y)
  else match x, y with
       | [a], _ => Some (map (f a) y)
       | _, [b] => Some (map (fun a => f a b) x)
       | _, _ => None
       end.

End Elementwise.

(** ** jax.random *)

Record JaxRandom : Type := mk_random {
  key : Type;
  (** [jr.split(key)] unpacked into its two keys. *)
  split : key -> key * key;
  (** Element [i] of [jr.normal(key, (n,))]. *)
  normal : key -> nat -> nat -> Qc;
  (** Element [i] of [jr.uniform(key, (n,))]. *)
  uniform : key -> nat -> nat -> Qc;
  (** Element [i] of [jr.truncated_normal(key, lower, upper, (n,))]. *)
  truncated_normal : key -> Qc -> Qc -> nat -> nat -> Qc
}.

(** The documented ranges of the samplers. *)
Record JaxRandomOk (R : JaxRandom) : Prop := {
  uniform_range : forall k n i, 0 <= uniform R k n i /\ uniform R k n i < 1;
  truncated_normal_range :
    forall k lo hi n i,
      lo <= hi ->
      lo <= truncated_normal R k lo hi n i /\
      truncated_normal R k lo hi n i <= hi
}.

(** The array of shape (n,) whose element [i] is [g i]. *)
Definition draw (g : nat -> Qc) (n : nat) : list Qc := map g (seq 0 n).

(** [jr.uniform(key, (n,), minval=lo, maxval=hi)]: the unit sample is
    scaled and shifted, and kept above [lo]. *)
Definition uniform_between (R : JaxRandom) (k : key R) (n : nat)
           (lo hi : Qc) : list Qc :=
  map (fun u => maximum lo (u * (hi - lo) + lo)) (draw (uniform R k n) n).

(** ** The Mutator interface *)

Class Mutator (R : JaxRandom) (M : Type) : Type := {
  initialize : M -> key R -> list Qc -> option (list Qc);
  split_params : M -> ndarray Qc -> option (ndarray Qc * ndarray Qc);
  mutate : M -> key R -> list Qc -> option (list Qc)
}.

(** ** BasicMutator *)

Module BasicMutator.

Record t : Type := mk { sd : Qc; change_perc : Qc }.

Section WithRandom.

Context {R : JaxRandom}.

Definition initialize (self : t) (k : key R) (p : list Qc)
  : option (list Qc) := Some p.

(** [jp.empty(0)] is the array of shape (0,). *)
Definition split_params (self : t) (p : ndarray Qc)
  : option (ndarray Qc * ndarray Qc) := Some (p, vec []).

(** The perturbation [dp] of [mutate]. *)
Definition delta (self : t) (k : key R) (n : nat) : option (list Qc) :=
  let '(k1, k2) := split R k in
  ew Qcmult
     (map (fun x => x * sd self) (draw (normal R k1 n) n))
     (map (fun u => astype_float (Qcltb u (change_perc self)))
          (draw (uniform R k2 n) n)).

Definition mutate (self : t) (k : key R) (p : list Qc)
  : option (list Qc) :=
  dp <- delta self k (length p) ;;
  ew Qcplus p dp.

End WithRandom.

End BasicMutator.

#[export] Instance BasicMutator_Mutator (R : JaxRandom)
  : Mutator R BasicMutator.t :=
  {| initialize := BasicMutator.initialize;
     split_params := BasicMutator.split_params;
     mutate := BasicMutator.mutate |}.

(** ** RandomlyAdaptiveMutator *)

Module RandomlyAdaptiveMutator.

Record t : Type := mk {
  init_sd : Qc;
  change_perc : option Qc;
  meta_sd_perc : Qc;
  min_sd : Qc;
  max_sd : Qc
}.

(** The constructor with its default arguments
    [meta_sd_perc=0.1, min_sd=1e-5, max_sd=1e1]. *)
Definition make (init_sd : Qc) (change_perc : option Qc) : t :=
  mk init_sd change_perc
     (Q2Qc (1 # 10)) (Q2Qc (1 # 100000)) (Q2Qc (10 # 1)).

Definition join_params (self : t) (p sd : list Qc) : option (list Qc) :=
  a <- column_stack p sd ;;
  Some (ravel a).

(** Works also if batched. *)
Definition split_params (self : t) (p : ndarray Qc)
  : option (ndarray Qc * ndarray Qc) :=
  m <- last_dim p ;;
  r <- reshape (lead_dims p ++ [(m / 2)%nat; 2%nat]) p ;;
  parts <- split_last 2 r ;;
  match parts with
  | [p_e; sd_e] =>
      mu <- index_last0 p_e ;;
      sd <- index_last0 sd_e ;;
      Some (mu, sd)
  | _ => None
  end.

Section WithRandom.

Context {R : JaxRandom}.

(** [jp.full_like(p, init_sd)] on a 1-D array. *)
Definition initialize (self : t) (k : key R) (p : list Qc)
  : option (list Qc) :=
  let sd := repeat (init_sd self) (length p) in
  join_params self p sd.

(** The two perturbations [(dmu, dsd)] of [mutate], computed from the
    std-dev array [sd] whose shape is (n,). *)
Definition deltas (self : t) (k : key R) (n : nat) (sd : list Qc)
  : option (list Qc * list Qc) :=
  let '(ku, k) := split R k in
  dmu <- ew Qcmult
            (draw (truncated_normal R ku (- of_nat 3) (of_nat 3) n) n) sd ;;
  let '(ku, k) := split R k in
  dsd0 <- ew Qcmult
             (draw (truncated_normal R ku (- of_nat 3) (of_nat 3) n) n) sd ;;
  let dsd := map (fun x => x * meta_sd_perc self) dsd0 in
  match change_perc self with
  | Some c =>
      let '(ku, k) := split R k in
      let mask :=
        map (fun u => astype_float (Qcltb u c)) (draw (uniform R ku n) n) in
      dmu' <- ew Qcmult dmu mask ;;
      dsd' <- ew Qcmult dsd mask ;;
      Some (dmu', dsd')
  | None => Some (dmu, dsd)
  end.

Definition mutate (self : t) (k : key R) (p : list Qc)
  : option (list Qc) :=
  '(mu, sd) <- split_params self (vec p) ;;
  '(dmu, dsd) <- deltas self k (size_of (shape sd)) (data sd) ;;
  new_mu <- ew Qcplus (data mu) dmu ;;
  s <- ew Qcplus (data sd) dsd ;;
  let new_sd := map (clip (min_sd self) (max_sd self)) s in
  join_params self new_mu new_sd.

End WithRandom.

End RandomlyAdaptiveMutator.

#[export] Instance RandomlyAdaptiveMutator_Mutator (R : JaxRandom)
  : Mutator R RandomlyAdaptiveMutator.t :=
  {| initialize := RandomlyAdaptiveMutator.initialize;
     split_params := RandomlyAdaptiveMutator.split_params;
     mutate := RandomlyAdaptiveMutator.mutate |}.

(** ** valuenoise1d *)

(** [int(math.ceil(n / d))] for a positive [d]. *)
Definition ceil_div (n d : nat) : nat := ((n + d - 1) / d)%nat.

(** [jp.repeat(l, r, axis=0)] *)
Definition repeat_each (l : list Qc) (r : nat) : list Qc :=
  flat_map (fun x => repeat x r) l.

(** [jp.tile(l, r)] *)
Definition tile (l : list Qc) (r : nat) : list Qc := concat (repeat l r).

(** [jp.linspace(start, stop, num)]: [num] evenly spaced samples, both
    ends included. *)
Definition linspace (start stop : Qc) (num : nat) : list Qc :=
  match num with
  | O => []
  | S O => [start]
  | S d => map (fun i => start + of_nat i * ((stop - start) / of_nat d))
               (seq 0 num)
  end.

Definition smoothstep (t : Qc) : Qc :=
  t * t * t * (t * (t * of_nat 6 - of_nat 15) + of_nat 10).

Section Noise.

Context {R : JaxRandom}.

(** [f = 1] divides by zero; [f = 0] asks for a negative repeat count and
    is not modelled further. *)
Definition valuenoise1d (k : key R) (f n : nat) (interpolation : string)
  : option (list Qc) :=
  if (f <? 2)%nat then None
  else
    let '(ku, k) := split R k in
    let grads := uniform_between R ku f (- (1)) 1 in
    let n_repeats := ceil_div n (f - 1) in
    let prev := firstn n (repeat_each (removelast grads) n_repeats) in
    let next := firstn n (repeat_each (tl grads) n_repeats) in
    let t :=
      firstn n (tile (removelast (linspace 0 1 (n_repeats + 1))) (f - 1)) in
    let t := if String.eqb interpolation "cubic"
             then map smoothstep t else t in
    d <- ew Qcminus next prev ;;
    td <- ew Qcmult t d ;;
    ew Qcplus prev td.

End Noise.

(** ** CrossOverSexualMutator *)

Module CrossOverSexualMutator.

Section WithMutator.

Context {R : JaxRandom}.
Variable M : Type.
Context {MM : Mutator R M}.

Record t : Type := mk { mutator : M; n_frequencies : nat }.

(** The constructor with its default [n_frequencies=16]. *)
Definition make (m : M) : t := mk m 16.

(** [new_p] of [mutate]: the parents recombined under the mask cut from
    the noise of key [ku]. *)
Definition recombine (self : t) (ku : key R) (p1 p2 : list Qc)
  : option (list Qc) :=
  noise <- valuenoise1d ku (n_frequencies self) (length p1) "linear" ;;
  let xo_mask := map (fun v => Qcltb 0 v) noise in
  a <- ew Qcmult (map astype_float xo_mask) p1 ;;
  b <- ew Qcmult (map (fun m => 1 - astype_float m) xo_mask) p2 ;;
  ew Qcplus a b.

Definition mutate (self : t) (k : key R) (p1 p2 : list Qc)
  : option (list Qc) :=
  let '(ku, k) := split R k in
  new_p <- recombine self ku p1 p2 ;;
  let '(ku, k) := split R k in
  (mutate (mutator self) ku new_p : option (list Qc)).

End WithMutator.

End CrossOverSexualMutator.

(** ** Names for the intermediate values of RandomlyAdaptiveMutator.mutate *)

Section MutateValues.

Variable R : JaxRandom.
Variable m : RandomlyAdaptiveMutator.t.

(** The key of the first, second and third sampler of [mutate]. *)
Definition key1 (k : key R) : key R := fst (split R k).
Definition key2 (k : key R) : key R := fst (split R (snd (split R k))).
Definition key3 (k : key R) : key R :=
  fst (split R (snd (split R (snd (split R k))))).

(** The mask of [mutate] for [change_perc = c]. *)
Definition mask_of (c : Qc) (k : key R) (n : nat) : list Qc :=
  map (fun u => astype_float (Qcltb u c)) (draw (uniform R (key3 k) n) n).

Definition raw_dmu (k : key R) (sd : list Qc) : list Qc :=
  map2 Qcmult
       (draw (truncated_normal R (key1 k) (- of_nat 3) (of_nat 3)
                               (length sd)) (length sd))
       sd.

Definition raw_dsd (k : key R) (sd : list Qc) : list Qc :=
  map (fun x => x * RandomlyAdaptiveMutator.meta_sd_perc m)
      (map2 Qcmult
            (draw (truncated_normal R (key2 k) (- of_nat 3) (of_nat 3)
                                    (length sd)) (length sd))
            sd).

End MutateValues.

Arguments key1 {R} k.
Arguments key2 {R} k.
Arguments key3 {R} k.
Arguments mask_of {R} c k n.
Arguments raw_dmu {R} k sd.
Arguments raw_dsd {R} m k sd.

(** A std-dev within the bounds of the mutator. *)
Definition sd_in_bounds (m : RandomlyAdaptiveMutator.t) (s : Qc) : Prop :=
  RandomlyAdaptiveMutator.min_sd m <= s /\
  s <= RandomlyAdaptiveMutator.max_sd m.

(** ** Names for the intermediate values of valuenoise1d *)

(** Element [j] of [grads]. *)
Definition gradient (R : JaxRandom) (k : key R) (f j : nat) : Qc :=
  maximum (- (1)) (uniform R (fst (split R k)) f j * (1 - - (1)) + - (1)).

(** What the interpolation argument does to the fraction [t]. *)
Definition interp (interpolation : string) (t : Qc) : Qc :=
  if String.eqb interpolation "cubic" then smoothstep t else t.

Arguments gradient {R} k f j.

(** ** A concrete sampler

    A small deterministic instance of [JaxRandom] over numeric keys, on which
    the definitions above can be run. *)

Definition frac (a b : nat) : Qc := Q2Qc (Z.of_nat a # Pos.of_nat b).

Definition demo_random : JaxRandom :=
  mk_random
    (fun k : nat => ((2 * k + 1)%nat, (2 * k + 2)%nat))
    (fun k n i => frac ((k + i) mod 7) 2 - 1)
    (fun k n i => frac ((k + i) mod 4) 4)
    (fun k lo hi n i => clip lo hi (frac ((k + i) mod 9) 2 - of_nat 2)).

(** * Properties *)

(** ** Shapes and rows *)

Section ArrayFacts.

Variable A : Type.
Implicit Types (l p sd : list A) (s : list nat).

Lemma size_of_app s1 s2 : size_of (s1 ++ s2) = (size_of s1 * size_of s2)%nat.
Proof.
  induction s1 as [|d s1 IH]; simpl.
  - lia.
  - rewrite IH. lia.
Qed.

Lemma last_dim_snoc s d l : last_dim (mk_nd (s ++ [d]) l) = Some d.
Proof.
  unfold last_dim; simpl.
  destruct s as [|d0 s]; simpl; [reflexivity|].
  f_equal. revert d0. induction s as [|d1 s IH]; intros d0; simpl.
  - reflexivity.
  - destruct s; [reflexivity | apply IH].
Qed.

Lemma lead_dims_snoc s d l : lead_dims (mk_nd (s ++ [d]) l) = s.
Proof. unfold lead_dims; simpl. apply removelast_last. Qed.

Lemma interleave_length p sd :
  length p = length sd -> length (interleave p sd) = (2 * length p)%nat.
Proof.
  revert sd. induction p as [|x p IH]; intros [|y sd] H; simpl in *;
    try discriminate; [reflexivity|].
  rewrite (IH sd); lia.
Qed.

Lemma evens_interleave p sd :
  length p = length sd -> evens (interleave p sd) = p.
Proof.
  revert sd. induction p as [|x p IH]; intros [|y sd] H; simpl in *;
    try discriminate; [reflexivity|].
  f_equal. apply IH. lia.
Qed.

Lemma odds_interleave p sd :
  length p = length sd -> odds (interleave p sd) = sd.
Proof.
  revert sd. induction p as [|x p IH]; intros [|y sd] H; simpl in *;
    try discriminate; [reflexivity|].
  f_equal. apply IH. lia.
Qed.

(** A list of even length is the interleaving of its two halves. *)
Lemma interleave_evens_odds l n :
  length l = (2 * n)%nat -> interleave (evens l) (odds l) = l.
Proof.
  revert l. induction n as [|n IH]; intros l H.
  - destruct l; [reflexivity | discriminate].
  - destruct l as [|x [|y l]]; simpl in H; try lia.
    simpl. do 2 f_equal. apply IH. lia.
Qed.

Lemma evens_length l n : length l = (2 * n)%nat -> length (evens l) = n.
Proof.
  revert l. induction n as [|n IH]; intros l H.
  - destruct l; [reflexivity | discriminate].
  - destruct l as [|x [|y l]]; simpl in H; try lia.
    simpl. f_equal. apply IH. lia.
Qed.

Lemma odds_length l n : length l = (2 * n)%nat -> length (odds l) = n.
Proof.
  revert l. induction n as [|n IH]; intros l H.
  - destruct l; [reflexivity | discriminate].
  - destruct l as [|x [|y l]]; simpl in H; try lia.
    simpl. f_equal. apply IH. lia.
Qed.

(** Column 0 and column 1 of the rows of width 2. *)
Lemma rows2_col0 n l :
  length l = (2 * n)%nat ->
  flat_map (fun r => firstn 1 (skipn (0 * 1) r)) (rows 2 n l) = evens l.
Proof.
  revert l. induction n as [|n IH]; intros l H.
  - destruct l; [reflexivity | discriminate].
  - destruct l as [|x [|y l]]; simpl in H; try lia.
    simpl. f_equal. apply IH. lia.
Qed.

Lemma rows2_col1 n l :
  length l = (2 * n)%nat ->
  flat_map (fun r => firstn 1 (skipn (1 * 1) r)) (rows 2 n l) = odds l.
Proof.
  revert l. induction n as [|n IH]; intros l H.
  - destruct l; [reflexivity | discriminate].
  - destruct l as [|x [|y l]]; simpl in H; try lia.
    simpl. f_equal. apply IH. lia.
Qed.

Lemma rows1_flat n l :
  length l = n -> flat_map (firstn 1) (rows 1 n l) = l.
Proof.
  revert l. induction n as [|n IH]; intros l H.
  - destruct l; [reflexivity | discriminate].
  - destruct l as [|x l]; simpl in H; try lia.
    simpl. f_equal. apply IH. lia.
Qed.

(** De-interleaving the whole buffer de-interleaves every row. *)
Lemma rows_evens n L l :
  rows L n (evens l) = map (@evens A) (rows (2 * L) n l).
Proof.
  revert l. induction n as [|n IH]; intros l; simpl; [reflexivity|].
  assert (E : forall k l', firstn k (evens l') = evens (firstn (2 * k) l')
                           /\ skipn k (evens l') = evens (skipn (2 * k) l')).
  { induction k as [|k IHk]; intros l'.
    - split; reflexivity.
    - destruct l' as [|x [|y l']].
      + split; reflexivity.
      + replace (2 * S k)%nat with (S (S (2 * k))) by lia.
        simpl. rewrite firstn_nil, skipn_nil. split; reflexivity.
      + replace (2 * S k)%nat with (S (S (2 * k))) by lia.
        destruct (IHk l') as [E1 E2].
        cbn [evens firstn skipn]. rewrite E1, E2. split; reflexivity. }
  destruct (E L l) as [E1 E2].
  replace (L + (L + 0))%nat with (2 * L)%nat by lia.
  rewrite E1, E2. f_equal. apply IH.
Qed.

Lemma rows_odds n L l :
  length l = (2 * L * n)%nat ->
  rows L n (odds l) = map (@odds A) (rows (2 * L) n l).
Proof.
  assert (E : forall k l', (2 * k <= length l')%nat ->
                           firstn k (odds l') = odds (firstn (2 * k) l')
                           /\ skipn k (odds l') = odds (skipn (2 * k) l')).
  { induction k as [|k IHk]; intros l' Hk.
    - split; reflexivity.
    - destruct l' as [|x [|y l']]; simpl in Hk; try lia.
      replace (2 * S k)%nat with (S (S (2 * k))) by lia.
      destruct (IHk l') as [E1 E2]; [lia|].
      cbn [odds firstn skipn]. rewrite E1, E2. split; reflexivity. }
  revert l. induction n as [|n IH]; intros l H; simpl; [reflexivity|].
  destruct (E L l) as [E1 E2]; [lia|].
  replace (L + (L + 0))%nat with (2 * L)%nat by lia.
  rewrite E1, E2. f_equal. apply IH.
  rewrite length_skipn. lia.
Qed.

End ArrayFacts.

(** ** split_params and join_params of RandomlyAdaptiveMutator *)

Section SplitJoin.

Import RandomlyAdaptiveMutator.

Variable self : RandomlyAdaptiveMutator.t.

(** On an array whose last axis has even length [2 * L], [split_params]
    returns the elements at even and at odd positions of the buffer, in
    two arrays whose last axis has length [L]. *)
Lemma split_params_even (lead : list nat) (L : nat) (l : list Qc) :
  length l = (size_of lead * (2 * L))%nat ->
  split_params self (mk_nd (lead ++ [(2 * L)%nat]) l) =
  Some (mk_nd (lead ++ [L]) (evens l), mk_nd (lead ++ [L]) (odds l)).
Proof.
  intros Hlen. unfold split_params.
  rewrite last_dim_snoc, lead_dims_snoc.
  replace ((2 * L) / 2)%nat with L
    by (rewrite Nat.mul_comm, Nat.div_mul; lia).
  unfold reshape. cbn [shape data].
  replace (size_of (lead ++ [L; 2%nat]) =? size_of (lead ++ [(2 * L)%nat]))
    with true
    by (symmetry; apply Nat.eqb_eq; rewrite !size_of_app; simpl; lia).
  replace (lead ++ [L; 2%nat]) with ((lead ++ [L]) ++ [2%nat])
    by (rewrite <- app_assoc; reflexivity).
  unfold split_last. rewrite last_dim_snoc, lead_dims_snoc.
  cbn [Nat.eqb orb negb Nat.modulo Nat.divmod Nat.div Nat.sub fst snd seq map].
  unfold rows_of. rewrite last_dim_snoc, lead_dims_snoc. cbn [data].
  assert (Hn : length l = (2 * size_of (lead ++ [L]))%nat)
    by (rewrite size_of_app; simpl; lia).
  rewrite (@rows2_col0 _ _ _ Hn), (@rows2_col1 _ _ _ Hn).
  unfold index_last0. rewrite !last_dim_snoc, !lead_dims_snoc.
  cbn [Nat.eqb]. unfold rows_of.
  rewrite !last_dim_snoc, !lead_dims_snoc. cbn [data].
  rewrite (@rows1_flat _ _ _ (@evens_length _ _ _ Hn)).
  rewrite (@rows1_flat _ _ _ (@odds_length _ _ _ Hn)).
  reflexivity.
Qed.

(** When the last axis is odd and the array is not empty, the reshape
    cannot keep the element count and [split_params] raises. *)
Lemma split_params_odd (lead : list nat) (m : nat) (l : list Qc) :
  Nat.odd m = true -> size_of lead <> 0%nat ->
  split_params self (mk_nd (lead ++ [m]) l) = None.
Proof.
  intros Hodd Hlead. unfold split_params.
  rewrite last_dim_snoc, lead_dims_snoc.
  unfold reshape. cbn [shape data].
  replace (size_of (lead ++ [(m / 2)%nat; 2%nat]) =? size_of (lead ++ [m]))
    with false; [reflexivity|].
  symmetry. apply Nat.eqb_neq. rewrite !size_of_app. simpl.
  pose proof (Nat.div_mod_eq m 2) as Hm.
  assert (Hr : (m mod 2 = 1)%nat).
  { rewrite <- Nat.bit0_mod. rewrite Nat.bit0_odd, Hodd. reflexivity. }
  intros E. apply Nat.mul_cancel_l in E; [lia | exact Hlead].
Qed.

(** The 1-D case. *)
Lemma split_params_vec (l : list Qc) (L : nat) :
  length l = (2 * L)%nat ->
  split_params self (vec l) = Some (vec (evens l), vec (odds l)).
Proof.
  intros Hlen. unfold vec.
  rewrite Hlen, (@evens_length _ _ _ Hlen), (@odds_length _ _ _ Hlen).
  apply (split_params_even [] L l). simpl. lia.
Qed.

Lemma join_params_same (p sd : list Qc) :
  length p = length sd ->
  join_params self p sd = Some (interleave p sd).
Proof.
  intros H. unfold join_params, column_stack.
  rewrite (proj2 (Nat.eqb_eq _ _) H). reflexivity.
Qed.

End SplitJoin.

Section InterleaveIndex.

Variable A : Type.

Lemma nth_error_interleave_even (p sd : list A) (i : nat) :
  length p = length sd ->
  nth_error (interleave p sd) (2 * i) = nth_error p i.
Proof.
  revert p sd. induction i as [|i IH]; intros [|x p] [|y sd] H;
    simpl in H; try discriminate; try reflexivity.
  replace (2 * S i)%nat with (S (S (2 * i))) by lia.
  simpl. apply IH. lia.
Qed.

Lemma nth_error_interleave_odd (p sd : list A) (i : nat) :
  length p = length sd ->
  nth_error (interleave p sd) (2 * i + 1) = nth_error sd i.
Proof.
  revert p sd. induction i as [|i IH]; intros [|x p] [|y sd] H;
    simpl in H; try discriminate; try reflexivity.
  replace (2 * S i + 1)%nat with (S (S (2 * i + 1))) by lia.
  simpl. apply IH. lia.
Qed.

End InterleaveIndex.

Section Initialize.

Import RandomlyAdaptiveMutator.

Variable R : JaxRandom.

Lemma initialize_interleave (self : t) (k : key R) (p : list Qc) :
  RandomlyAdaptiveMutator.initialize self k p =
  Some (interleave p (repeat (init_sd self) (length p))).
Proof.
  unfold RandomlyAdaptiveMutator.initialize.
  apply join_params_same. rewrite repeat_length. reflexivity.
Qed.

Lemma split_interleave (self : t) (p sd : list Qc) :
  length p = length sd ->
  RandomlyAdaptiveMutator.split_params self (vec (interleave p sd)) =
  Some (vec p, vec sd).
Proof.
  intros H.
  rewrite (@split_params_vec self _ (length p)
             (interleave_length _ _ H)).
  rewrite (evens_interleave _ _ H), (odds_interleave _ _ H).
  reflexivity.
Qed.

End Initialize.

(** ** C1: round trip *)

(** C1.  For both strategies, every key and every 1-D model vector [p],
    [initialize] succeeds and the model component of [split_params] of its
    result is [p]; for RandomlyAdaptiveMutator the std-dev component is
    [init_sd] at every position.  With [init_sd = 0.1], [[5.0]] is
    initialised to a vector that splits into [([5.0], [0.1])]. *)
Theorem split_params_initialize_roundtrip (R : JaxRandom) :
  (forall (m : BasicMutator.t) (k : key R) (p : list Qc),
      exists full meta,
        initialize m k p = Some full /\
        split_params (R := R) m (vec full) = Some (vec p, meta))
  /\
  (forall (m : RandomlyAdaptiveMutator.t) (k : key R) (p : list Qc),
      exists full,
        initialize m k p = Some full /\
        split_params (R := R) m (vec full) =
        Some (vec p,
              vec (repeat (RandomlyAdaptiveMutator.init_sd m) (length p))))
  /\
  (forall (k : key R),
      let m := RandomlyAdaptiveMutator.make (Q2Qc (1 # 10)) None in
      exists full,
        initialize m k [of_nat 5] = Some full /\
        split_params (R := R) m (vec full) =
        Some (vec [of_nat 5], vec [Q2Qc (1 # 10)])).
Proof.
  split; [|split].
  - intros m k p. exists p, (vec []). split; reflexivity.
  - intros m k p. eexists. split.
    + apply initialize_interleave.
    + apply split_interleave. rewrite repeat_length. reflexivity.
  - intros k m. eexists. split.
    + apply initialize_interleave.
    + apply split_interleave. reflexivity.
Qed.

(** ** C4: interleaved representation *)

(** C4.  [initialize] on a model vector of length [L] returns the flat
    vector of length [2 * L] with [p[i]] at position [2 * i] and [init_sd]
    at position [2 * i + 1].  On a batched array whose last axis has
    length [2 * L], [split_params] returns two arrays that keep the leading
    dimensions and have last axis [L]; their rows are the even-position and
    the odd-position elements of the corresponding input row. *)
Theorem interleaved_representation
        (R : JaxRandom) (m : RandomlyAdaptiveMutator.t) (k : key R)
        (p : list Qc) (lead : list nat) (L : nat) (l : list Qc) :
  well_formed (mk_nd (lead ++ [(2 * L)%nat]) l) ->
  (exists full,
      initialize m k p = Some full /\
      length full = (2 * length p)%nat /\
      (forall i, nth_error full (2 * i) = nth_error p i) /\
      (forall i, nth_error full (2 * i + 1) =
                 nth_error
                   (repeat (RandomlyAdaptiveMutator.init_sd m) (length p)) i)
      /\
      split_params (R := R) m (vec full) =
      Some (vec p,
            vec (repeat (RandomlyAdaptiveMutator.init_sd m) (length p))))
  /\
  (exists mu sd,
      split_params (R := R) m (mk_nd (lead ++ [(2 * L)%nat]) l) =
      Some (mu, sd) /\
      shape mu = lead ++ [L] /\ shape sd = lead ++ [L] /\
      well_formed mu /\ well_formed sd /\
      rows_of mu =
      map (@evens Qc) (rows_of (mk_nd (lead ++ [(2 * L)%nat]) l)) /\
      rows_of sd =
      map (@odds Qc) (rows_of (mk_nd (lead ++ [(2 * L)%nat]) l))).
Proof.
  intros Hwf. unfold well_formed in Hwf. cbn [shape data] in Hwf.
  rewrite size_of_app in Hwf. simpl size_of in Hwf.
  assert (Hlen : length l = (size_of lead * (2 * L))%nat) by lia.
  split.
  - assert (Hr : length p =
                 length (repeat (RandomlyAdaptiveMutator.init_sd m) (length p)))
      by (rewrite repeat_length; reflexivity).
    eexists. split; [apply initialize_interleave|].
    split; [apply interleave_length; exact Hr|].
    split; [intros i; apply nth_error_interleave_even; exact Hr|].
    split; [intros i; apply nth_error_interleave_odd; exact Hr|].
    apply split_interleave; exact Hr.
  - do 2 eexists. split; [apply split_params_even; exact Hlen|].
    assert (Hh : length l = (2 * (size_of lead * L))%nat) by lia.
    cbn [shape]. split; [reflexivity|]. split; [reflexivity|].
    split; [|split; [|split]].
    + unfold well_formed. cbn [shape data]. rewrite size_of_app. simpl.
      rewrite (@evens_length _ _ _ Hh). lia.
    + unfold well_formed. cbn [shape data]. rewrite size_of_app. simpl.
      rewrite (@odds_length _ _ _ Hh). lia.
    + unfold rows_of. rewrite !last_dim_snoc, !lead_dims_snoc. cbn [data].
      apply rows_evens.
    + unfold rows_of. rewrite !last_dim_snoc, !lead_dims_snoc. cbn [data].
      apply rows_odds. lia.
Qed.

Lemma interleaved_representation_witness :
  let m := RandomlyAdaptiveMutator.make (frac 1 10) None in
  let l := map of_nat [1; 2; 3; 4; 5; 6; 7; 8]%nat in
  well_formed (mk_nd ([2%nat] ++ [(2 * 2)%nat]) l) /\
  exists mu sd,
    split_params (R := demo_random) m (mk_nd ([2%nat] ++ [(2 * 2)%nat]) l) =
    Some (mu, sd) /\
    shape mu = [2%nat; 2%nat] /\ shape sd = [2%nat; 2%nat].
Proof.
  intros m l.
  assert (Hwf : well_formed (mk_nd ([2%nat] ++ [(2 * 2)%nat]) l))
    by reflexivity.
  split; [exact Hwf|].
  destruct (proj2 (@interleaved_representation
                     demo_random m 0%nat [of_nat 5; of_nat 7]
                     [2%nat] 2%nat l Hwf))
    as [mu [sd [Hs [H1 [H2 _]]]]].
  exists mu, sd. repeat split; assumption.
Defined.

(** A batch of two vectors [[1; 2; 3; 4]] and [[5; 6; 7; 8]]: the values
    are [[1; 3]] and [[5; 7]], the std-devs [[2; 4]] and [[6; 8]]. *)
Example split_params_batched_example :
  RandomlyAdaptiveMutator.split_params
    (RandomlyAdaptiveMutator.make (frac 1 10) None)
    (mk_nd [2%nat; 4%nat] (map of_nat [1; 2; 3; 4; 5; 6; 7; 8]%nat)) =
  Some (mk_nd [2%nat; 2%nat] (map of_nat [1; 3; 5; 7]%nat),
        mk_nd [2%nat; 2%nat] (map of_nat [2; 4; 6; 8]%nat)).
Proof. reflexivity. Qed.

(** ** C8: odd length *)

(** C8.  On a vector of odd length [split_params] raises, and so does
    [mutate]: no result is produced from a shortened or padded vector. *)
Theorem split_params_odd_length_fails
        (R : JaxRandom) (m : RandomlyAdaptiveMutator.t) (k : key R)
        (l : list Qc) :
  Nat.odd (length l) = true ->
  split_params (R := R) m (vec l) = None /\ mutate m k l = None.
Proof.
  intros Hodd.
  assert (H : RandomlyAdaptiveMutator.split_params m (vec l) = None).
  { unfold vec. apply (@split_params_odd m [] (length l) l Hodd).
    simpl. lia. }
  split; [exact H|].
  cbn [mutate RandomlyAdaptiveMutator_Mutator].
  unfold RandomlyAdaptiveMutator.mutate. rewrite H. reflexivity.
Qed.

Lemma split_params_odd_length_fails_witness :
  Nat.odd (length [of_nat 1; of_nat 2; of_nat 3]) = true /\
  split_params (R := demo_random)
               (RandomlyAdaptiveMutator.make (frac 1 10) None)
               (vec [of_nat 1; of_nat 2; of_nat 3]) = None /\
  mutate (R := demo_random)
         (RandomlyAdaptiveMutator.make (frac 1 10) None) 0%nat
         [of_nat 1; of_nat 2; of_nat 3] = None.
Proof.
  split; [reflexivity|].
  exact (@split_params_odd_length_fails
           demo_random (RandomlyAdaptiveMutator.make (frac 1 10) None)
           0%nat [of_nat 1; of_nat 2; of_nat 3] eq_refl).
Defined.

(** An odd last axis goes through when the array has no element: shape
    (0, 3) is reshaped to (0, 1, 2). *)
Example split_params_empty_batch_example :
  RandomlyAdaptiveMutator.split_params
    (RandomlyAdaptiveMutator.make (frac 1 10) None)
    (mk_nd [0%nat; 3%nat] []) =
  Some (mk_nd [0%nat; 1%nat] [], mk_nd [0%nat; 1%nat] []).
Proof. reflexivity. Qed.

(** ** Arithmetic of [Qc] *)

Lemma this_plus (x y : Qc) : (this (x + y) == this x + this y)%Q.
Proof. apply Qred_correct. Qed.

Lemma this_mult (x y : Qc) : (this (x * y) == this x * this y)%Q.
Proof. apply Qred_correct. Qed.

Lemma this_opp (x : Qc) : (this (- x) == - this x)%Q.
Proof. apply Qred_correct. Qed.

Lemma this_minus (x y : Qc) : (this (x - y) == this x - this y)%Q.
Proof. unfold Qcminus. rewrite this_plus, this_opp. reflexivity. Qed.

(** Moves an order statement on [Qc] to [Q], where [lra] and [nra] work. *)
Ltac qc_to_q :=
  unfold Qcle, Qclt in *;
  repeat (rewrite ?this_plus, ?this_mult, ?this_opp, ?this_minus in * );
  change (this 1) with 1%Q in *; change (this 0) with 0%Q in *.

Lemma Qcltb_true (x y : Qc) : Qcltb x y = true <-> x < y.
Proof.
  rewrite Qclt_alt. unfold Qcltb.
  destruct (x ?= y); split; congruence.
Qed.

Lemma Qcltb_false (x y : Qc) : Qcltb x y = false <-> y <= x.
Proof.
  rewrite <- not_true_iff_false, Qcltb_true. split.
  - apply Qcnot_lt_le.
  - apply Qcle_not_lt.
Qed.

Lemma maximum_ge (lo x : Qc) : lo <= maximum lo x.
Proof.
  unfold maximum. destruct (Qcltb lo x) eqn:E.
  - apply Qclt_le_weak, Qcltb_true, E.
  - apply Qcle_refl.
Qed.

Lemma clip_range (lo hi x : Qc) :
  lo <= hi -> lo <= clip lo hi x /\ clip lo hi x <= hi.
Proof.
  intros H. unfold clip, minimum.
  destruct (Qcltb (maximum lo x) hi) eqn:E.
  - split; [apply maximum_ge | apply Qclt_le_weak, Qcltb_true, E].
  - split; [exact H | apply Qcle_refl].
Qed.

(** A value already inside the bounds is left alone. *)
Lemma clip_id (lo hi x : Qc) : lo <= x -> x <= hi -> clip lo hi x = x.
Proof.
  intros H1 H2. unfold clip.
  assert (Hmax : maximum lo x = x).
  { unfold maximum. destruct (Qcltb lo x) eqn:E; [reflexivity|].
    apply Qcltb_false in E. apply Qcle_antisym; assumption. }
  rewrite Hmax. unfold minimum.
  destruct (Qcltb x hi) eqn:E; [reflexivity|].
  apply Qcltb_false in E. apply Qcle_antisym; assumption.
Qed.

Lemma lerp_range (a b t : Qc) :
  - (1) <= a -> a <= 1 -> - (1) <= b -> b <= 1 -> 0 <= t -> t <= 1 ->
  - (1) <= a + t * (b - a) /\ a + t * (b - a) <= 1.
Proof. intros. qc_to_q. split; nra. Qed.

(** ** Element-wise operations *)

Section ElementwiseFacts.

Variables A B C : Type.
Variable f : A -> B -> C.

Lemma map2_length (x : list A) (y : list B) :
  length x = length y -> length (map2 f x y) = length x.
Proof.
  revert y. induction x as [|a x IH]; intros [|b y] H; simpl in *;
    try discriminate; [reflexivity|].
  f_equal. apply IH. lia.
Qed.

Lemma ew_same (x : list A) (y : list B) :
  length x = length y -> ew f x y = Some (map2 f x y).
Proof.
  intros H. unfold ew. rewrite (proj2 (Nat.eqb_eq _ _) H). reflexivity.
Qed.

Lemma nth_error_map2 (x : list A) (y : list B) (i : nat) :
  nth_error (map2 f x y) i =
  match nth_error x i, nth_error y i with
  | Some a, Some b => Some (f a b)
  | _, _ => None
  end.
Proof.
  revert x y. induction i as [|i IH]; intros [|a x] [|b y]; simpl;
    try reflexivity.
  - destruct (nth_error x i); reflexivity.
  - apply IH.
Qed.

End ElementwiseFacts.

Lemma draw_length (g : nat -> Qc) (n : nat) : length (draw g n) = n.
Proof. unfold draw. rewrite length_map, length_seq. reflexivity. Qed.

Lemma nth_error_draw (g : nat -> Qc) (n i : nat) :
  (i < n)%nat -> nth_error (draw g n) i = Some (g i).
Proof.
  intros H. unfold draw. rewrite nth_error_map.
  rewrite nth_error_seq. 
  destruct (Nat.ltb_spec i n) as [_|F]; [reflexivity | lia].
Qed.

Lemma map2_plus_zero (p dp : list Qc) :
  length p = length dp -> Forall (fun d => d = 0) dp ->
  map2 Qcplus p dp = p.
Proof.
  revert dp. induction p as [|x p IH]; intros [|d dp] H F; simpl in *;
    try discriminate; [reflexivity|].
  inversion F as [|? ? Hd F']; subst.
  rewrite Qcplus_0_r. f_equal. apply IH; [lia | exact F'].
Qed.

Lemma map2_mult_zero_r (x m : list Qc) :
  Forall (fun d => d = 0) m -> Forall (fun d => d = 0) (map2 Qcmult x m).
Proof.
  revert m. induction x as [|a x IH]; intros [|b m] F; simpl;
    try constructor.
  - inversion F; subst. apply Qcmult_0_r.
  - apply IH. inversion F; assumption.
Qed.

Lemma map2_mult_zero_l (x m : list Qc) :
  Forall (fun d => d = 0) x -> Forall (fun d => d = 0) (map2 Qcmult x m).
Proof.
  revert m. induction x as [|a x IH]; intros [|b m] F; simpl;
    try constructor.
  - inversion F; subst. apply Qcmult_0_l.
  - apply IH. inversion F; assumption.
Qed.

Lemma Forall_map (P : Qc -> Prop) (h : Qc -> Qc) (l : list Qc) :
  (forall x, In x l -> P (h x)) -> Forall P (map h l).
Proof.
  intros H. apply Forall_forall. intros y Hy.
  apply in_map_iff in Hy. destruct Hy as [x [<- Hx]]. apply H, Hx.
Qed.

Lemma In_draw (g : nat -> Qc) (n : nat) (x : Qc) :
  In x (draw g n) -> exists i, (i < n)%nat /\ x = g i.
Proof.
  unfold draw. intros H. apply in_map_iff in H.
  destruct H as [i [<- Hi]]. apply in_seq in Hi.
  exists i. split; [lia|reflexivity].
Qed.

Lemma demo_random_ok : JaxRandomOk demo_random.
Proof.
  constructor.
  - intros k n i. cbn [uniform demo_random].
    pose proof (Nat.mod_upper_bound (k + i) 4) as H.
    destruct ((k + i) mod 4) as [|[|[|[|a]]]]; try lia;
      (split; [vm_compute; discriminate | vm_compute; reflexivity]).
  - intros k lo hi n i H. cbn [truncated_normal demo_random].
    apply clip_range, H.
Qed.

(** ** BasicMutator.mutate *)

Section BasicFacts.

Variable R : JaxRandom.

Lemma basic_delta_length (m : BasicMutator.t) (k : key R) (n : nat) :
  exists dp, BasicMutator.delta m k n = Some dp /\ length dp = n.
Proof.
  unfold BasicMutator.delta. destruct (split R k) as [k1 k2].
  eexists. split.
  - apply ew_same. rewrite !length_map, !draw_length. reflexivity.
  - rewrite map2_length; rewrite !length_map, !draw_length; reflexivity.
Qed.

(** A perturbation that is zero everywhere leaves [p] as it is. *)
Lemma basic_mutate_zero (m : BasicMutator.t) (k : key R) (p dp : list Qc) :
  BasicMutator.delta m k (length p) = Some dp ->
  Forall (fun d => d = 0) dp ->
  BasicMutator.mutate m k p = Some p.
Proof.
  intros Hd Hz. unfold BasicMutator.mutate. rewrite Hd.
  destruct (basic_delta_length m k (length p)) as [dp' [Hd' Hlen]].
  rewrite Hd in Hd'. injection Hd' as <-.
  rewrite ew_same by (symmetry; exact Hlen).
  f_equal. apply map2_plus_zero; [symmetry; exact Hlen | exact Hz].
Qed.

Lemma basic_delta_zero_mask (s : Qc) (k : key R) (n : nat) :
  (forall k' n' i, 0 <= uniform R k' n' i) ->
  exists dp, BasicMutator.delta (BasicMutator.mk s 0) k n = Some dp /\
             Forall (fun d => d = 0) dp.
Proof.
  intros Hu. unfold BasicMutator.delta. destruct (split R k) as [k1 k2].
  eexists. split.
  - apply ew_same. rewrite !length_map, !draw_length. reflexivity.
  - apply map2_mult_zero_r. apply Forall_map. intros u Hin.
    apply In_draw in Hin. destruct Hin as [i [_ ->]].
    cbn [BasicMutator.change_perc].
    replace (Qcltb (uniform R k2 n i) 0) with false; [reflexivity|].
    symmetry. apply Qcltb_false, Hu.
Qed.

Lemma basic_delta_zero_sd (c : Qc) (k : key R) (n : nat) :
  exists dp, BasicMutator.delta (BasicMutator.mk 0 c) k n = Some dp /\
             Forall (fun d => d = 0) dp.
Proof.
  unfold BasicMutator.delta. destruct (split R k) as [k1 k2].
  eexists. split.
  - apply ew_same. rewrite !length_map, !draw_length. reflexivity.
  - apply map2_mult_zero_l. apply Forall_map. intros x _.
    cbn [BasicMutator.sd]. apply Qcmult_0_r.
Qed.

End BasicFacts.

(** ** C7: degenerate configurations of BasicMutator *)

(** C7.  With [change_perc = 0] (any [sd]) and with [sd = 0],
    [change_perc = 1], [BasicMutator.mutate] returns its input [p] for every
    key; so [[1; 2; 3]] is returned as [[1; 2; 3]]. *)
Theorem basic_mutate_identity
        (R : JaxRandom) (k : key R) (p : list Qc) :
  JaxRandomOk R ->
  (forall s : Qc, mutate (BasicMutator.mk s 0) k p = Some p) /\
  mutate (BasicMutator.mk 0 1) k p = Some p /\
  mutate (BasicMutator.mk 0 1) k [of_nat 1; of_nat 2; of_nat 3] =
  Some [of_nat 1; of_nat 2; of_nat 3].
Proof.
  intros HR. cbn [mutate BasicMutator_Mutator]. split; [|split].
  - intros s.
    destruct (@basic_delta_zero_mask R s k (length p)) as [dp [Hd Hz]].
    + intros k' n' i. apply (uniform_range HR).
    + eapply basic_mutate_zero; eassumption.
  - destruct (@basic_delta_zero_sd R 1 k (length p)) as [dp [Hd Hz]].
    eapply basic_mutate_zero; eassumption.
  - destruct (@basic_delta_zero_sd R 1 k 3) as [dp [Hd Hz]].
    eapply basic_mutate_zero; [exact Hd | exact Hz].
Qed.

Lemma basic_mutate_identity_witness :
  JaxRandomOk demo_random /\
  mutate (R := demo_random) (BasicMutator.mk (of_nat 2) 0) 5%nat
         [of_nat 4; of_nat 7] = Some [of_nat 4; of_nat 7].
Proof.
  split; [exact demo_random_ok|].
  exact (proj1 (@basic_mutate_identity demo_random 5%nat [of_nat 4; of_nat 7]
                  demo_random_ok) (of_nat 2)).
Defined.

(** ** RandomlyAdaptiveMutator.mutate *)

Section AdaptiveFacts.

Import RandomlyAdaptiveMutator.

Variable R : JaxRandom.
Variable m : RandomlyAdaptiveMutator.t.

Lemma raw_dmu_length (k : key R) (sd : list Qc) :
  length (raw_dmu k sd) = length sd.
Proof.
  unfold raw_dmu. rewrite map2_length; rewrite draw_length; reflexivity.
Qed.

Lemma raw_dsd_length (k : key R) (sd : list Qc) :
  length (raw_dsd m k sd) = length sd.
Proof.
  unfold raw_dsd. rewrite length_map.
  rewrite map2_length; rewrite draw_length; reflexivity.
Qed.

Lemma mask_of_length (c : Qc) (k : key R) (n : nat) :
  length (mask_of c k n) = n.
Proof. unfold mask_of. rewrite length_map, draw_length. reflexivity. Qed.

(** What [deltas] computes, with and without a mask. *)
Lemma deltas_masked (c : Qc) (k : key R) (sd : list Qc) :
  change_perc m = Some c ->
  deltas m k (length sd) sd =
  Some (map2 Qcmult (raw_dmu k sd) (mask_of c k (length sd)),
        map2 Qcmult (raw_dsd m k sd) (mask_of c k (length sd))).
Proof.
  intros Hc. unfold deltas, raw_dmu, raw_dsd, mask_of, key1, key2, key3.
  destruct (split R k) as [ku1 k1]. cbn [fst snd].
  rewrite ew_same by (rewrite draw_length; reflexivity).
  destruct (split R k1) as [ku2 k2]. cbn [fst snd].
  rewrite ew_same by (rewrite draw_length; reflexivity).
  rewrite Hc.
  destruct (split R k2) as [ku3 k3]. cbn [fst snd].
  rewrite ew_same
    by (rewrite map2_length, length_map, !draw_length;
        rewrite ?draw_length; reflexivity).
  rewrite ew_same
    by (rewrite !length_map, map2_length, !draw_length;
        rewrite ?draw_length; reflexivity).
  reflexivity.
Qed.

Lemma deltas_unmasked (k : key R) (sd : list Qc) :
  change_perc m = None ->
  deltas m k (length sd) sd = Some (raw_dmu k sd, raw_dsd m k sd).
Proof.
  intros Hc. unfold deltas, raw_dmu, raw_dsd, key1, key2.
  destruct (split R k) as [ku1 k1]. cbn [fst snd].
  rewrite ew_same by (rewrite draw_length; reflexivity).
  destruct (split R k1) as [ku2 k2]. cbn [fst snd].
  rewrite ew_same by (rewrite draw_length; reflexivity).
  rewrite Hc. reflexivity.
Qed.

Lemma deltas_total (k : key R) (sd : list Qc) :
  exists dmu dsd,
    deltas m k (length sd) sd = Some (dmu, dsd) /\
    length dmu = length sd /\ length dsd = length sd.
Proof.
  destruct (change_perc m) as [c|] eqn:Hc.
  - do 2 eexists. split; [apply (@deltas_masked _ k sd Hc)|].
    split; rewrite map2_length;
      rewrite ?raw_dmu_length, ?raw_dsd_length, ?mask_of_length;
      reflexivity.
  - do 2 eexists. split; [apply (@deltas_unmasked k sd Hc)|].
    split; [apply raw_dmu_length | apply raw_dsd_length].
Qed.

(** A vector that [split_params] accepts has even length, and its two
    components are its even-position and odd-position elements. *)
Lemma split_params_vec_inv (p : list Qc) (mu sd : ndarray Qc) :
  split_params m (vec p) = Some (mu, sd) ->
  mu = vec (evens p) /\ sd = vec (odds p) /\
  length (evens p) = length (odds p) /\
  length p = (2 * length (odds p))%nat.
Proof.
  intros H.
  destruct (Nat.odd (length p)) eqn:Hodd.
  - assert (Hn : split_params m (vec p) = None).
    { apply (@split_params_odd m [] (length p) p Hodd). simpl. lia. }
    rewrite Hn in H. discriminate.
  - assert (Hlen : length p = (2 * (length p / 2))%nat).
    { pose proof (Nat.div_mod_eq (length p) 2) as Hd.
      assert (length p mod 2 = 0)%nat.
      { rewrite <- Nat.bit0_mod, Nat.bit0_odd, Hodd. reflexivity. }
      lia. }
    rewrite (@split_params_vec m p _ Hlen) in H.
    injection H as <- <-.
    rewrite (@evens_length _ _ _ Hlen), (@odds_length _ _ _ Hlen).
    repeat split; try reflexivity. exact Hlen.
Qed.

(** [mutate] on a vector that splits into [(mu, sd)]: it succeeds, and its
    result splits into [mu + dmu] and the clipped [sd + dsd]. *)
Lemma mutate_split (k : key R) (p : list Qc) (mu sd : ndarray Qc) :
  split_params m (vec p) = Some (mu, sd) ->
  exists dmu dsd out,
    deltas m k (length (data sd)) (data sd) = Some (dmu, dsd) /\
    mutate m k p = Some out /\
    split_params m (vec out) =
    Some (vec (map2 Qcplus (data mu) dmu),
          vec (map (clip (min_sd m) (max_sd m))
                   (map2 Qcplus (data sd) dsd))).
Proof.
  intros Hs.
  destruct (@split_params_vec_inv p _ _ Hs) as [-> [-> [Heo Hlen]]].
  cbn [data vec].
  destruct (deltas_total k (odds p)) as [dmu [dsd [Hd [Hl1 Hl2]]]].
  exists dmu, dsd.
  eexists. split; [exact Hd|].
  assert (Hj : length (map2 Qcplus (evens p) dmu) =
               length (map (clip (min_sd m) (max_sd m))
                           (map2 Qcplus (odds p) dsd))).
  { rewrite length_map, !map2_length by congruence. exact Heo. }
  split.
  - unfold mutate. rewrite Hs. cbn [shape data vec size_of fold_right].
    rewrite Nat.mul_1_r, Hd.
    rewrite ew_same by congruence.
    rewrite ew_same by congruence.
    apply join_params_same. exact Hj.
  - apply split_interleave. exact Hj.
Qed.

End AdaptiveFacts.

(** ** C3 and C9: the std-dev clamp *)

Lemma clip_all_in_bounds (m : RandomlyAdaptiveMutator.t) (l : list Qc) :
  RandomlyAdaptiveMutator.min_sd m <= RandomlyAdaptiveMutator.max_sd m ->
  Forall (sd_in_bounds m)
         (map (clip (RandomlyAdaptiveMutator.min_sd m)
                    (RandomlyAdaptiveMutator.max_sd m)) l).
Proof.
  intros H. apply Forall_map. intros x _. apply clip_range, H.
Qed.

(** C3.  When the std-dev component of the input lies within
    [[min_sd, max_sd]], [mutate] succeeds and the std-dev component of its
    result is [clip (sd + dsd)], every element of which lies within
    [[min_sd, max_sd]]. *)
Theorem mutate_sd_clamped
        (R : JaxRandom) (m : RandomlyAdaptiveMutator.t) (k : key R)
        (p : list Qc) (mu sd : ndarray Qc) :
  RandomlyAdaptiveMutator.split_params m (vec p) = Some (mu, sd) ->
  Forall (sd_in_bounds m) (data sd) ->
  exists dmu dsd out mu' sd',
    RandomlyAdaptiveMutator.deltas m k (length (data sd)) (data sd) =
    Some (dmu, dsd) /\
    RandomlyAdaptiveMutator.mutate m k p = Some out /\
    RandomlyAdaptiveMutator.split_params m (vec out) = Some (mu', sd') /\
    data sd' =
    map (clip (RandomlyAdaptiveMutator.min_sd m)
              (RandomlyAdaptiveMutator.max_sd m))
        (map2 Qcplus (data sd) dsd) /\
    Forall (sd_in_bounds m) (data sd').
Proof.
  intros Hs Hin.
  destruct (@mutate_split R m k p mu sd Hs) as [dmu [dsd [out [Hd [Hm Ho]]]]].
  exists dmu, dsd, out. do 2 eexists.
  split; [exact Hd|]. split; [exact Hm|]. split; [exact Ho|].
  cbn [data vec]. split; [reflexivity|].
  destruct (data sd) as [|s0 rest] eqn:E.
  - constructor.
  - apply clip_all_in_bounds.
    inversion Hin as [|? ? [H1 H2] _]; subst.
    apply (Qcle_trans _ _ _ H1 H2).
Qed.

(** C9.  With [min_sd <= max_sd], whatever the std-dev component of the
    input is, [mutate] succeeds and the std-dev component of its result is
    [clip (sd + dsd)], every element of which lies within
    [[min_sd, max_sd]]. *)
Theorem mutate_sd_bound_restored
        (R : JaxRandom) (m : RandomlyAdaptiveMutator.t) (k : key R)
        (p : list Qc) (mu sd : ndarray Qc) :
  RandomlyAdaptiveMutator.min_sd m <= RandomlyAdaptiveMutator.max_sd m ->
  RandomlyAdaptiveMutator.split_params m (vec p) = Some (mu, sd) ->
  exists dmu dsd out mu' sd',
    RandomlyAdaptiveMutator.deltas m k (length (data sd)) (data sd) =
    Some (dmu, dsd) /\
    RandomlyAdaptiveMutator.mutate m k p = Some out /\
    RandomlyAdaptiveMutator.split_params m (vec out) = Some (mu', sd') /\
    data sd' =
    map (clip (RandomlyAdaptiveMutator.min_sd m)
              (RandomlyAdaptiveMutator.max_sd m))
        (map2 Qcplus (data sd) dsd) /\
    Forall (sd_in_bounds m) (data sd').
Proof.
  intros Hle Hs.
  destruct (@mutate_split R m k p mu sd Hs) as [dmu [dsd [out [Hd [Hm Ho]]]]].
  exists dmu, dsd, out. do 2 eexists.
  split; [exact Hd|]. split; [exact Hm|]. split; [exact Ho|].
  cbn [data vec]. split; [reflexivity|].
  apply clip_all_in_bounds, Hle.
Qed.

Lemma mutate_sd_clamped_witness :
  let m := RandomlyAdaptiveMutator.make (frac 1 10) (Some (frac 1 2)) in
  let p := [of_nat 5; frac 1 10; of_nat 7; of_nat 1] in
  RandomlyAdaptiveMutator.split_params m (vec p) =
  Some (vec [of_nat 5; of_nat 7], vec [frac 1 10; of_nat 1]) /\
  Forall (sd_in_bounds m) [frac 1 10; of_nat 1] /\
  exists out mu' sd',
    RandomlyAdaptiveMutator.mutate (R := demo_random) m 0%nat p = Some out /\
    RandomlyAdaptiveMutator.split_params m (vec out) = Some (mu', sd') /\
    Forall (sd_in_bounds m) (data sd').
Proof.
  intros m p.
  assert (Hs : RandomlyAdaptiveMutator.split_params m (vec p) =
               Some (vec [of_nat 5; of_nat 7], vec [frac 1 10; of_nat 1]))
    by reflexivity.
  assert (Hin : Forall (sd_in_bounds m) [frac 1 10; of_nat 1])
    by (repeat constructor; vm_compute; discriminate).
  split; [exact Hs|]. split; [exact Hin|].
  destruct (@mutate_sd_clamped demo_random m 0%nat p _ _ Hs Hin)
    as [dmu [dsd [out [mu' [sd' [_ [Hm [Ho [_ Hb]]]]]]]]].
  exists out, mu', sd'. repeat split; assumption.
Defined.

Lemma mutate_sd_bound_restored_witness :
  let m := RandomlyAdaptiveMutator.make (frac 1 10) None in
  let p := [of_nat 5; of_nat 100; of_nat 7; - of_nat 1] in
  RandomlyAdaptiveMutator.min_sd m <= RandomlyAdaptiveMutator.max_sd m /\
  RandomlyAdaptiveMutator.split_params m (vec p) =
  Some (vec [of_nat 5; of_nat 7], vec [of_nat 100; - of_nat 1]) /\
  exists out mu' sd',
    RandomlyAdaptiveMutator.mutate (R := demo_random) m 0%nat p = Some out /\
    RandomlyAdaptiveMutator.split_params m (vec out) = Some (mu', sd') /\
    Forall (sd_in_bounds m) (data sd').
Proof.
  intros m p.
  assert (Hle : RandomlyAdaptiveMutator.min_sd m <=
                RandomlyAdaptiveMutator.max_sd m)
    by (vm_compute; discriminate).
  assert (Hs : RandomlyAdaptiveMutator.split_params m (vec p) =
               Some (vec [of_nat 5; of_nat 7],
                     vec [of_nat 100; - of_nat 1]))
    by reflexivity.
  split; [exact Hle|]. split; [exact Hs|].
  destruct (@mutate_sd_bound_restored demo_random m 0%nat p _ _ Hle Hs)
    as [dmu [dsd [out [mu' [sd' [_ [Hm [Ho [_ Hb]]]]]]]]].
  exists out, mu', sd'. repeat split; assumption.
Defined.

(** On the input of the witness above the result is computed outright: the
    std-devs 100 and -1 come back as [max_sd = 10] and [min_sd = 1e-5]. *)
Example mutate_out_of_range_example :
  option_map (map this)
    (RandomlyAdaptiveMutator.mutate
       (R := demo_random) (RandomlyAdaptiveMutator.make (frac 1 10) None)
       0%nat [of_nat 5; of_nat 100; of_nat 7; - of_nat 1]) =
  Some [(-145 # 1)%Q; (10 # 1)%Q; (8 # 1)%Q; (1 # 100000)%Q].
Proof. vm_compute. reflexivity. Qed.

(** ** C2: the shared mask *)

Lemma astype_float_cases (b : bool) : astype_float b = 0 \/ astype_float b = 1.
Proof. destruct b; [right | left]; reflexivity. Qed.

Lemma Qc_one_neq_zero : (1 : Qc) <> 0.
Proof. intros H. discriminate H. Qed.

(** C2, as the code has it.  With [change_perc = c], position [i] of both
    deltas carries the same mask factor [mk] (0 or 1):
    [dmu[i] = u1 * sd[i] * mk] and [dsd[i] = u2 * sd[i] * meta_sd_perc * mk],
    where [u1] and [u2] are the two truncated-normal samples.  When the mask
    is 0 both deltas are 0.  When [meta_sd_perc] and both samples are not 0,
    [dmu[i] = 0] if and only if [dsd[i] = 0]. *)
Theorem deltas_share_mask
        (R : JaxRandom) (m : RandomlyAdaptiveMutator.t) (c : Qc)
        (k : key R) (sd : list Qc) (i : nat) (s : Qc) :
  RandomlyAdaptiveMutator.change_perc m = Some c ->
  nth_error sd i = Some s ->
  exists dmu dsd x y,
    RandomlyAdaptiveMutator.deltas m k (length sd) sd = Some (dmu, dsd) /\
    nth_error dmu i = Some x /\ nth_error dsd i = Some y /\
    let n := length sd in
    let u1 := truncated_normal R (key1 k) (- of_nat 3) (of_nat 3) n i in
    let u2 := truncated_normal R (key2 k) (- of_nat 3) (of_nat 3) n i in
    let mk := astype_float (Qcltb (uniform R (key3 k) n i) c) in
    x = u1 * s * mk /\
    y = u2 * s * RandomlyAdaptiveMutator.meta_sd_perc m * mk /\
    (mk = 0 -> x = 0 /\ y = 0) /\
    (RandomlyAdaptiveMutator.meta_sd_perc m <> 0 -> u1 <> 0 -> u2 <> 0 ->
     (x = 0 <-> y = 0)).
Proof.
  intros Hc Hs.
  assert (Hi : (i < length sd)%nat)
    by (apply nth_error_Some; rewrite Hs; discriminate).
  do 4 eexists.
  split; [apply (@deltas_masked R m c k sd Hc)|].
  split.
  { rewrite nth_error_map2. unfold raw_dmu, mask_of.
    rewrite nth_error_map2, nth_error_map, !nth_error_draw by exact Hi.
    rewrite Hs. cbn [option_map]. reflexivity. }
  split.
  { rewrite nth_error_map2. unfold raw_dsd, mask_of.
    rewrite !nth_error_map, nth_error_map2, !nth_error_draw by exact Hi.
    rewrite Hs. cbn [option_map]. reflexivity. }
  cbv zeta.
  set (u1 := truncated_normal R (key1 k) _ _ _ i).
  set (u2 := truncated_normal R (key2 k) _ _ _ i).
  set (mk := astype_float _).
  split; [reflexivity|]. split; [reflexivity|]. split.
  - intros ->. split; ring.
  - intros Hmeta Hu1 Hu2.
    destruct (astype_float_cases
                (Qcltb (uniform R (key3 k) (length sd) i) c)) as [E|E];
      fold mk in E; rewrite E.
    + split; intros _; ring.
    + split; intros H.
      * assert (Hs0 : s = 0).
        { apply Qcmult_integral in H. destruct H as [H|H];
            [|exfalso; exact (Qc_one_neq_zero H)].
          apply Qcmult_integral in H. destruct H as [H|H];
            [exfalso; exact (Hu1 H) | exact H]. }
        rewrite Hs0. ring.
      * assert (Hs0 : s = 0).
        { apply Qcmult_integral in H. destruct H as [H|H];
            [|exfalso; exact (Qc_one_neq_zero H)].
          apply Qcmult_integral in H. destruct H as [H|H];
            [|exfalso; exact (Hmeta H)].
          apply Qcmult_integral in H. destruct H as [H|H];
            [exfalso; exact (Hu2 H) | exact H]. }
        rewrite Hs0. ring.
Qed.

Lemma deltas_share_mask_witness :
  let m := RandomlyAdaptiveMutator.make (frac 1 10) (Some (frac 1 2)) in
  RandomlyAdaptiveMutator.change_perc m = Some (frac 1 2) /\
  nth_error [of_nat 1; of_nat 2] 0 = Some (of_nat 1) /\
  exists dmu dsd x y,
    RandomlyAdaptiveMutator.deltas (R := demo_random) m 0%nat 2
                                   [of_nat 1; of_nat 2] = Some (dmu, dsd) /\
    nth_error dmu 0 = Some x /\ nth_error dsd 0 = Some y.
Proof.
  intros m.
  split; [reflexivity|]. split; [reflexivity|].
  destruct (@deltas_share_mask demo_random m (frac 1 2) 0%nat
              [of_nat 1; of_nat 2] 0%nat (of_nat 1) eq_refl eq_refl)
    as [dmu [dsd [x [y [Hd [Hx [Hy _]]]]]]].
  exists dmu, dsd, x, y. repeat split; assumption.
Defined.

(** With [meta_sd_perc = 0] and [change_perc = 1], on the std-dev vector
    [[1]] and key 0 of [demo_random]: the mask is 1, [dmu = [-3/2]] and
    [dsd = [0]]. *)
Lemma deltas_iff_fails :
  ~ (forall (R : JaxRandom) (m : RandomlyAdaptiveMutator.t) (c : Qc)
            (k : key R) (sd dmu dsd : list Qc) (i : nat) (x y : Qc),
        RandomlyAdaptiveMutator.change_perc m = Some c ->
        RandomlyAdaptiveMutator.deltas m k (length sd) sd = Some (dmu, dsd) ->
        nth_error dmu i = Some x ->
        nth_error dsd i = Some y ->
        (x = 0 <-> y = 0)).
Proof.
  intros H.
  pose (m := RandomlyAdaptiveMutator.mk
               (frac 1 10) (Some 1) 0 (Q2Qc (1 # 100000)) (of_nat 10)).
  assert (E : exists x y,
             RandomlyAdaptiveMutator.deltas (R := demo_random) m 0%nat 1
                                            [of_nat 1] = Some ([x], [y]) /\
             this x = (-3 # 2)%Q /\ this y = (0 # 1)%Q).
  { vm_compute. do 2 eexists. split; [reflexivity|]. split; reflexivity. }
  destruct E as [x [y [Hd [Hx Hy]]]].
  specialize (H demo_random m 1 0%nat [of_nat 1] [x] [y] 0%nat x y
                eq_refl Hd eq_refl eq_refl).
  assert (Hy0 : y = 0) by (apply Qc_is_canon; rewrite Hy; reflexivity).
  apply H in Hy0. rewrite Hy0 in Hx. discriminate Hx.
Qed.

(** The same input through [mutate]: the value 5 becomes 7/2 while the
    std-dev stays 1. *)
Example mutate_meta_zero_example :
  option_map (map this)
    (RandomlyAdaptiveMutator.mutate
       (R := demo_random)
       (RandomlyAdaptiveMutator.mk
          (frac 1 10) (Some 1) 0 (Q2Qc (1 # 100000)) (of_nat 10))
       0%nat [of_nat 5; of_nat 1]) =
  Some [(7 # 2)%Q; (1 # 1)%Q].
Proof. vm_compute. reflexivity. Qed.

(** With the default configuration and a std-dev already at [max_sd = 10],
    a positive [dsd] is clipped away: the value moves, the std-dev does
    not. *)
Example mutate_at_max_sd_example :
  option_map (map this)
    (RandomlyAdaptiveMutator.mutate
       (R := demo_random)
       (RandomlyAdaptiveMutator.make (frac 1 10) (Some 1))
       3%nat [of_nat 5; of_nat 10]) =
  Some [(20 # 1)%Q; (10 # 1)%Q].
Proof. vm_compute. reflexivity. Qed.

(** ** Lists built by valuenoise1d *)

Lemma ceil_div_bound (n d : nat) : (0 < d)%nat -> (n <= d * ceil_div n d)%nat.
Proof.
  intros Hd. unfold ceil_div.
  pose proof (Nat.div_mod_eq (n + d - 1) d) as E.
  pose proof (Nat.mod_upper_bound (n + d - 1) d) as B.
  lia.
Qed.

(** [ceil_div n d] is the least [q] with [n <= d * q]. *)
Lemma ceil_div_least (n d q : nat) :
  (0 < d)%nat -> (n <= d * q)%nat -> (ceil_div n d <= q)%nat.
Proof.
  intros Hd H. unfold ceil_div.
  apply Nat.lt_succ_r. apply Nat.Div0.div_lt_upper_bound. lia.
Qed.

Lemma ceil_div_pos (n d : nat) :
  (0 < d)%nat -> (0 < n)%nat -> (0 < ceil_div n d)%nat.
Proof.
  intros Hd Hn. pose proof (ceil_div_bound n Hd) as B.
  destruct (ceil_div n d); [lia | lia].
Qed.

Lemma repeat_each_length (l : list Qc) (r : nat) :
  length (repeat_each l r) = (length l * r)%nat.
Proof.
  unfold repeat_each. induction l as [|a l IH]; simpl; [reflexivity|].
  rewrite length_app, repeat_length, IH. reflexivity.
Qed.

Lemma nth_error_repeat_each (l : list Qc) (r i : nat) :
  (0 < r)%nat -> nth_error (repeat_each l r) i = nth_error l (i / r).
Proof.
  intros Hr. unfold repeat_each. revert i.
  induction l as [|a l IH]; intros i; simpl.
  - rewrite !nth_error_nil. reflexivity.
  - destruct (Nat.lt_ge_cases i r) as [Hi|Hi].
    + rewrite nth_error_app1 by (rewrite repeat_length; exact Hi).
      rewrite nth_error_repeat by exact Hi.
      rewrite Nat.div_small by exact Hi. reflexivity.
    + rewrite nth_error_app2 by (rewrite repeat_length; exact Hi).
      rewrite repeat_length, IH.
      replace (i / r)%nat with (S ((i - r) / r)); [reflexivity|].
      replace i with ((i - r) + 1 * r)%nat at 2 by lia.
      rewrite Nat.div_add by lia. lia.
Qed.

Lemma tile_length (l : list Qc) (d : nat) :
  length (tile l d) = (d * length l)%nat.
Proof.
  unfold tile. induction d as [|d IH]; simpl; [reflexivity|].
  rewrite length_app, IH. reflexivity.
Qed.

Lemma nth_error_tile (l : list Qc) (d i : nat) :
  (i < d * length l)%nat ->
  nth_error (tile l d) i = nth_error l (i mod length l).
Proof.
  unfold tile. revert i. induction d as [|d IH]; intros i Hi; simpl in *.
  - lia.
  - destruct (Nat.lt_ge_cases i (length l)) as [Hl|Hl].
    + rewrite nth_error_app1 by exact Hl.
      rewrite Nat.mod_small by exact Hl. reflexivity.
    + rewrite nth_error_app2 by exact Hl.
      rewrite IH by lia.
      replace i with ((i - length l) + 1 * length l)%nat at 2 by lia.
      rewrite Nat.Div0.mod_add. reflexivity.
Qed.

Lemma removelast_length (l : list Qc) :
  length (removelast l) = pred (length l).
Proof.
  rewrite removelast_firstn_len, length_firstn. lia.
Qed.

Lemma nth_error_removelast (l : list Qc) (j : nat) :
  (S j < length l)%nat -> nth_error (removelast l) j = nth_error l j.
Proof.
  intros H. rewrite removelast_firstn_len, nth_error_firstn.
  destruct (Nat.ltb_spec j (pred (length l))); [reflexivity | lia].
Qed.

Lemma nth_error_tl (l : list Qc) (j : nat) :
  nth_error (tl l) j = nth_error l (S j).
Proof. destruct l; simpl; [apply nth_error_nil | reflexivity]. Qed.

Lemma tl_length (l : list Qc) : length (tl l) = pred (length l).
Proof. destruct l; reflexivity. Qed.

Lemma of_nat_neq_0 (r : nat) : (0 < r)%nat -> of_nat r <> 0.
Proof.
  intros Hr H. apply (f_equal this) in H. unfold of_nat in H.
  assert (E : (inject_Z (Z.of_nat r) == 0)%Q).
  { rewrite <- (Qred_correct (inject_Z (Z.of_nat r))).
    cbn [this Q2Qc] in H. rewrite H. reflexivity. }
  unfold Qeq in E. simpl in E. lia.
Qed.

(** The fractions [0/r, 1/r, ..., (r-1)/r]. *)
Lemma linspace_unit (r : nat) :
  (0 < r)%nat ->
  removelast (linspace 0 1 (r + 1)) =
  map (fun i => of_nat i / of_nat r) (seq 0 r).
Proof.
  intros Hr. destruct r as [|r']; [lia|].
  replace (S r' + 1)%nat with (S (S r')) by lia.
  unfold linspace.
  rewrite (seq_S (S r') 0), map_app. cbn [map].
  rewrite removelast_last.
  apply map_ext. intros i.
  field. apply of_nat_neq_0. lia.
Qed.

Lemma linspace_length (a b : Qc) (num : nat) :
  length (linspace a b num) = num.
Proof.
  unfold linspace. destruct num as [|[|d]]; try reflexivity.
  rewrite length_map, length_seq. reflexivity.
Qed.

(** ** valuenoise1d *)

Section NoiseFacts.

Variable R : JaxRandom.

Lemma uniform_between_length (k : key R) (n : nat) (lo hi : Qc) :
  length (uniform_between R k n lo hi) = n.
Proof.
  unfold uniform_between. rewrite length_map, draw_length. reflexivity.
Qed.

Lemma nth_error_uniform_between (k : key R) (n j : nat) (lo hi : Qc) :
  (j < n)%nat ->
  nth_error (uniform_between R k n lo hi) j =
  Some (maximum lo (uniform R k n j * (hi - lo) + lo)).
Proof.
  intros H. unfold uniform_between.
  rewrite nth_error_map, nth_error_draw by exact H. reflexivity.
Qed.

(** The result of [valuenoise1d], element by element: with
    [r = ceil_div n (f - 1)], element [i] lies in segment [i / r], at the
    fraction [(i mod r) / r] between the two gradients of that segment. *)
Lemma valuenoise1d_spec (k : key R) (f n : nat) (mode : string) :
  (2 <= f)%nat ->
  exists out,
    valuenoise1d k f n mode = Some out /\
    length out = n /\
    forall i, (i < n)%nat ->
      let r := ceil_div n (f - 1) in
      (S (i / r) < f)%nat /\
      (i mod r < r)%nat /\
      nth_error out i =
      Some (gradient k f (i / r) +
            interp mode (of_nat (i mod r) / of_nat r) *
            (gradient k f (S (i / r)) - gradient k f (i / r))).
Proof.
  intros Hf. unfold valuenoise1d, gradient.
  destruct (Nat.ltb_spec f 2) as [F|_]; [lia|].
  destruct (split R k) as [ku k']. cbn [fst].
  set (grads := uniform_between R ku f (- (1)) 1).
  set (r := ceil_div n (f - 1)).
  set (prev := firstn n (repeat_each (removelast grads) r)).
  set (next := firstn n (repeat_each (tl grads) r)).
  set (t0 := firstn n (tile (removelast (linspace 0 1 (r + 1))) (f - 1))).
  set (t := if String.eqb mode "cubic" then map smoothstep t0 else t0).
  assert (Hg : length grads = f) by apply uniform_between_length.
  assert (Hb : (n <= (f - 1) * r)%nat) by (apply ceil_div_bound; lia).
  assert (Hprev : length prev = n).
  { unfold prev. rewrite length_firstn, repeat_each_length,
      removelast_length, Hg. lia. }
  assert (Hnext : length next = n).
  { unfold next. rewrite length_firstn, repeat_each_length,
      tl_length, Hg. lia. }
  assert (Hl : length (removelast (linspace 0 1 (r + 1))) = r).
  { rewrite removelast_length, linspace_length. lia. }
  assert (Ht0 : length t0 = n).
  { unfold t0. rewrite length_firstn, tile_length, Hl. lia. }
  assert (Ht : length t = n).
  { unfold t. destruct (String.eqb mode "cubic");
      [rewrite length_map|]; exact Ht0. }
  assert (Hd : length (map2 Qcminus next prev) = n)
    by (rewrite map2_length; congruence).
  assert (Htd : length (map2 Qcmult t (map2 Qcminus next prev)) = n)
    by (rewrite map2_length; congruence).
  rewrite ew_same by congruence.
  rewrite ew_same by congruence.
  rewrite ew_same by congruence.
  eexists. split; [reflexivity|]. split.
  { rewrite map2_length; congruence. }
  intros i Hi. cbv zeta. fold r.
  assert (Hr : (0 < r)%nat) by (apply ceil_div_pos; lia).
  assert (Hj : (i / r < f - 1)%nat)
    by (apply Nat.Div0.div_lt_upper_bound; lia).
  assert (Hm : (i mod r < r)%nat) by (apply Nat.mod_upper_bound; lia).
  split; [lia|]. split; [exact Hm|].
  assert (Eprev : nth_error prev i =
                  Some (maximum (- (1))
                          (uniform R ku f (i / r) * (1 - - (1)) + - (1)))).
  { unfold prev. rewrite nth_error_firstn.
    destruct (Nat.ltb_spec i n); [|lia].
    rewrite nth_error_repeat_each by exact Hr.
    rewrite nth_error_removelast by lia.
    apply nth_error_uniform_between. lia. }
  assert (Enext : nth_error next i =
                  Some (maximum (- (1))
                          (uniform R ku f (S (i / r)) * (1 - - (1))
                           + - (1)))).
  { unfold next. rewrite nth_error_firstn.
    destruct (Nat.ltb_spec i n); [|lia].
    rewrite nth_error_repeat_each by exact Hr.
    rewrite nth_error_tl.
    apply nth_error_uniform_between. lia. }
  assert (Et0 : nth_error t0 i = Some (of_nat (i mod r) / of_nat r)).
  { unfold t0. rewrite nth_error_firstn.
    destruct (Nat.ltb_spec i n); [|lia].
    rewrite nth_error_tile by (rewrite Hl; lia).
    rewrite Hl, linspace_unit by exact Hr.
    rewrite nth_error_map, nth_error_seq.
    destruct (Nat.ltb_spec (i mod r) r); [|lia]. reflexivity. }
  assert (Et : nth_error t i =
               Some (interp mode (of_nat (i mod r) / of_nat r))).
  { unfold t, interp. destruct (String.eqb mode "cubic").
    - rewrite nth_error_map, Et0. reflexivity.
    - exact Et0. }
  rewrite !nth_error_map2, Eprev, Enext, Et. reflexivity.
Qed.

End NoiseFacts.

Lemma this_of_nat (n : nat) : (this (of_nat n) == inject_Z (Z.of_nat n))%Q.
Proof. apply Qred_correct. Qed.

Lemma this_div (x y : Qc) : (this (x / y) == this x / this y)%Q.
Proof.
  unfold Qcdiv. rewrite this_mult. unfold Qcinv. cbn [this Q2Qc].
  rewrite Qred_correct. reflexivity.
Qed.

(** [j / r] lies in [[0, 1]] when [j < r]. *)
Lemma fraction_range (j r : nat) :
  (j < r)%nat -> 0 <= of_nat j / of_nat r /\ of_nat j / of_nat r <= 1.
Proof.
  intros H. unfold Qcle. rewrite this_div, !this_of_nat.
  change (this 0) with 0%Q. change (this 1) with 1%Q.
  assert (Hr : (0 < inject_Z (Z.of_nat r))%Q).
  { unfold Qlt. simpl. lia. }
  split.
  - apply Qle_shift_div_l; [exact Hr|].
    rewrite Qmult_0_l. unfold Qle. simpl. lia.
  - apply Qle_shift_div_r; [exact Hr|].
    rewrite Qmult_1_l. unfold Qle. simpl. lia.
Qed.

Lemma gradient_range (R : JaxRandom) (k : key R) (f j : nat) :
  JaxRandomOk R ->
  - (1) <= gradient k f j /\ gradient k f j <= 1.
Proof.
  intros HR. unfold gradient. split; [apply maximum_ge|].
  destruct (uniform_range HR (fst (split R k)) f j) as [H0 H1].
  unfold maximum.
  destruct (Qcltb _ _).
  - qc_to_q. lra.
  - qc_to_q. lra.
Qed.

Lemma Forall_nth_error (P : Qc -> Prop) (l : list Qc) :
  (forall i x, nth_error l i = Some x -> P x) -> Forall P l.
Proof.
  intros H. apply Forall_forall. intros x Hx.
  apply In_nth_error in Hx. destruct Hx as [i Hi]. exact (H i x Hi).
Qed.

(** ** C5: the noise generator *)

(** C5.  For [f >= 2], [valuenoise1d key f n "linear"] returns exactly [n]
    values, each within [[-1, 1]].  The repeat count [r] is the ceiling of
    [n / (f - 1)]: the least number with [n <= (f - 1) * r].  Element [i]
    belongs to segment [i / r] (one of the [f - 1] segments of [r]
    consecutive elements, the sequence being cut after [n] elements) and is
    the linear interpolation, at the fraction [(i mod r) / r], between
    gradient [i / r] and gradient [i / r + 1], both within [[-1, 1]]. *)
Theorem valuenoise1d_linear_contract
        (R : JaxRandom) (k : key R) (f n : nat) :
  JaxRandomOk R ->
  (2 <= f)%nat ->
  exists out r,
    valuenoise1d k f n "linear" = Some out /\
    length out = n /\
    Forall (fun v => - (1) <= v /\ v <= 1) out /\
    (n <= (f - 1) * r)%nat /\
    (forall q, (n <= (f - 1) * q)%nat -> (r <= q)%nat) /\
    forall i, (i < n)%nat ->
      let t := of_nat (i mod r) / of_nat r in
      (i / r < f - 1)%nat /\
      (i mod r < r)%nat /\
      0 <= t /\ t <= 1 /\
      - (1) <= gradient k f (i / r) /\ gradient k f (i / r) <= 1 /\
      - (1) <= gradient k f (S (i / r)) /\ gradient k f (S (i / r)) <= 1 /\
      nth_error out i =
      Some (gradient k f (i / r) +
            t * (gradient k f (S (i / r)) - gradient k f (i / r))).
Proof.
  intros HR Hf.
  destruct (@valuenoise1d_spec R k f n "linear" Hf) as [out [Ho [Hlen Hnth]]].
  exists out, (ceil_div n (f - 1)).
  split; [exact Ho|]. split; [exact Hlen|].
  assert (Hall : forall i, (i < n)%nat ->
      let r := ceil_div n (f - 1) in
      let t := of_nat (i mod r) / of_nat r in
      (i / r < f - 1)%nat /\
      (i mod r < r)%nat /\
      0 <= t /\ t <= 1 /\
      - (1) <= gradient k f (i / r) /\ gradient k f (i / r) <= 1 /\
      - (1) <= gradient k f (S (i / r)) /\ gradient k f (S (i / r)) <= 1 /\
      nth_error out i =
      Some (gradient k f (i / r) +
            t * (gradient k f (S (i / r)) - gradient k f (i / r)))).
  { intros i Hi. cbv zeta.
    destruct (Hnth i Hi) as [Hj [Hm He]].
    destruct (fraction_range Hm) as [T0 T1].
    destruct (gradient_range k f (i / ceil_div n (f - 1)) HR) as [G0 G1].
    destruct (gradient_range k f (S (i / ceil_div n (f - 1))) HR) as [G2 G3].
    split; [lia|]. repeat (split; [assumption|]).
    exact He. }
  split.
  { apply Forall_nth_error. intros i x Hx.
    assert (Hi : (i < n)%nat).
    { rewrite <- Hlen. apply nth_error_Some. rewrite Hx. discriminate. }
    destruct (Hall i Hi) as [_ [_ [T0 [T1 [G0 [G1 [G2 [G3 He]]]]]]]].
    rewrite Hx in He. injection He as ->.
    apply lerp_range; assumption. }
  split; [apply ceil_div_bound; lia|].
  split; [intros q Hq; apply ceil_div_least; [lia | exact Hq]|].
  exact Hall.
Qed.

Lemma valuenoise1d_linear_contract_witness :
  JaxRandomOk demo_random /\ (2 <= 4)%nat /\
  exists out,
    valuenoise1d (R := demo_random) 3%nat 4 10 "linear" = Some out /\
    length out = 10%nat /\
    Forall (fun v => - (1) <= v /\ v <= 1) out /\
    nth_error out 5 =
    Some (gradient (R := demo_random) 3%nat 4 1 +
          of_nat 1 / of_nat 4 *
          (gradient (R := demo_random) 3%nat 4 2
           - gradient (R := demo_random) 3%nat 4 1)).
Proof.
  split; [exact demo_random_ok|]. split; [lia|].
  destruct (@valuenoise1d_linear_contract demo_random 3%nat 4 10
              demo_random_ok ltac:(lia))
    as [out [r [Ho [Hl [Hb [Hr [Hmin Hn]]]]]]].
  assert (Er : r = 4%nat).
  { pose proof (Hmin 4%nat ltac:(simpl; lia)). simpl in Hr. lia. }
  subst r.
  exists out. split; [exact Ho|]. split; [exact Hl|]. split; [exact Hb|].
  destruct (Hn 5%nat ltac:(lia)) as [_ [_ [_ [_ [_ [_ [_ [_ He]]]]]]]].
  exact He.
Defined.

(** The ten values of the witness: segments of [r = 4] elements between the
    gradients 1/2, -1, -1/2 and 0, the last segment cut after two. *)
Example valuenoise1d_linear_example :
  option_map (map this)
             (valuenoise1d (R := demo_random) 3%nat 4 10 "linear") =
  Some [(1 # 2)%Q; (1 # 8)%Q; (-1 # 4)%Q; (-5 # 8)%Q;
        (-1 # 1)%Q; (-7 # 8)%Q; (-3 # 4)%Q; (-5 # 8)%Q;
        (-1 # 2)%Q; (-3 # 8)%Q].
Proof. vm_compute. reflexivity. Qed.

(** ** C10: the interpolation argument *)

(** C10.  For [f >= 2] and any [mode] other than ["cubic"],
    [valuenoise1d] with [mode] is [valuenoise1d] with ["linear"]: it
    succeeds and element [i] is the linear interpolation at the fraction
    [t = (i mod r) / r].  With ["cubic"], and only then, the fraction is
    replaced by [smoothstep t]. *)
Theorem valuenoise1d_mode_fallback
        (R : JaxRandom) (k : key R) (f n : nat) (mode : string) :
  mode <> "cubic"%string ->
  (2 <= f)%nat ->
  valuenoise1d k f n mode = valuenoise1d k f n "linear" /\
  (exists out,
      valuenoise1d k f n mode = Some out /\
      length out = n /\
      forall i, (i < n)%nat ->
        let r := ceil_div n (f - 1) in
        nth_error out i =
        Some (gradient k f (i / r) +
              of_nat (i mod r) / of_nat r *
              (gradient k f (S (i / r)) - gradient k f (i / r)))) /\
  (exists out,
      valuenoise1d k f n "cubic" = Some out /\
      length out = n /\
      forall i, (i < n)%nat ->
        let r := ceil_div n (f - 1) in
        nth_error out i =
        Some (gradient k f (i / r) +
              smoothstep (of_nat (i mod r) / of_nat r) *
              (gradient k f (S (i / r)) - gradient k f (i / r)))).
Proof.
  intros Hmode Hf.
  assert (E : String.eqb mode "cubic" = false)
    by (apply String.eqb_neq; exact Hmode).
  split; [|split].
  - unfold valuenoise1d. rewrite E. reflexivity.
  - destruct (@valuenoise1d_spec R k f n mode Hf) as [out [Ho [Hl Hn]]].
    exists out. split; [exact Ho|]. split; [exact Hl|].
    intros i Hi. destruct (Hn i Hi) as [_ [_ He]].
    unfold interp in He. rewrite E in He. exact He.
  - destruct (@valuenoise1d_spec R k f n "cubic" Hf) as [out [Ho [Hl Hn]]].
    exists out. split; [exact Ho|]. split; [exact Hl|].
    intros i Hi. destruct (Hn i Hi) as [_ [_ He]]. exact He.
Qed.

Lemma valuenoise1d_mode_fallback_witness :
  "cubik"%string <> "cubic"%string /\ (2 <= 4)%nat /\
  valuenoise1d (R := demo_random) 3%nat 4 10 "cubik" =
  valuenoise1d (R := demo_random) 3%nat 4 10 "linear".
Proof.
  assert (H : "cubik"%string <> "cubic"%string) by discriminate.
  split; [exact H|]. split; [lia|].
  exact (proj1 (@valuenoise1d_mode_fallback demo_random 3%nat 4 10 "cubik"
                  H ltac:(lia))).
Defined.

(** On the same input ["cubic"] gives other values than ["linear"]. *)
Example valuenoise1d_cubic_example :
  option_map (map this)
             (valuenoise1d (R := demo_random) 3%nat 4 10 "cubic") =
  Some [(1 # 2)%Q; (353 # 1024)%Q; (-1 # 4)%Q; (-865 # 1024)%Q;
        (-1 # 1)%Q; (-971 # 1024)%Q; (-3 # 4)%Q; (-565 # 1024)%Q;
        (-1 # 2)%Q; (-459 # 1024)%Q].
Proof. vm_compute. reflexivity. Qed.

(** ** C6: crossover of identical parents *)

Lemma recombine_same (mask : list bool) (p : list Qc) :
  length mask = length p ->
  map2 Qcplus
       (map2 Qcmult (map astype_float mask) p)
       (map2 Qcmult (map (fun b => 1 - astype_float b) mask) p) = p.
Proof.
  revert p. induction mask as [|b mask IH]; intros [|x p] H; simpl in *;
    try discriminate; [reflexivity|].
  f_equal; [ring | apply IH; lia].
Qed.

(** C6.  With [n_frequencies >= 2], recombining a vector [p] with itself
    gives [p], and [mutate key p p] is the wrapped mutator's [mutate] on
    [p] under the first key of the second split. *)
Theorem crossover_identical_parents
        (R : JaxRandom) (M : Type) (MM : Mutator R M)
        (self : CrossOverSexualMutator.t M) (k : key R) (p : list Qc) :
  (2 <= CrossOverSexualMutator.n_frequencies self)%nat ->
  CrossOverSexualMutator.recombine self (fst (split R k)) p p = Some p /\
  CrossOverSexualMutator.mutate self k p p =
  mutate (CrossOverSexualMutator.mutator self)
         (fst (split R (snd (split R k)))) p.
Proof.
  intros Hf.
  assert (Hrec : forall ku,
             CrossOverSexualMutator.recombine (R := R) self ku p p = Some p).
  { intros ku. unfold CrossOverSexualMutator.recombine.
    destruct (@valuenoise1d_spec R ku _ (length p) "linear" Hf)
      as [noise [Hn [Hl _]]].
    rewrite Hn.
    assert (H1 : length (map astype_float (map (fun v => Qcltb 0 v) noise))
                 = length p) by (rewrite !length_map; exact Hl).
    assert (H2 : length (map (fun m => 1 - astype_float m)
                             (map (fun v => Qcltb 0 v) noise))
                 = length p) by (rewrite !length_map; exact Hl).
    rewrite ew_same by exact H1.
    rewrite ew_same by exact H2.
    rewrite ew_same by (rewrite !map2_length; congruence).
    f_equal. apply recombine_same. rewrite length_map. exact Hl. }
  split; [apply Hrec|].
  unfold CrossOverSexualMutator.mutate.
  destruct (split R k) as [ku k1]. cbn [fst snd].
  rewrite Hrec.
  destruct (split R k1) as [ku2 k2]. reflexivity.
Qed.

Lemma crossover_identical_parents_witness :
  let self := CrossOverSexualMutator.make
                (BasicMutator.mk (of_nat 2) (frac 1 2)) in
  (2 <= CrossOverSexualMutator.n_frequencies self)%nat /\
  CrossOverSexualMutator.recombine
    (R := demo_random) self 7%nat
    [of_nat 1; of_nat 2; of_nat 3] [of_nat 1; of_nat 2; of_nat 3] =
  Some [of_nat 1; of_nat 2; of_nat 3].
Proof.
  intros self.
  assert (H : (2 <= CrossOverSexualMutator.n_frequencies self)%nat)
    by (simpl; lia).
  split; [exact H|].
  exact (proj1 (@crossover_identical_parents
                  demo_random _ _ self 3%nat
                  [of_nat 1; of_nat 2; of_nat 3] H)).
Defined.


(** * Further properties of the mutators *)

(** ** join_params and split_params *)

Lemma vec_inj (a b : list Qc) : vec a = vec b -> a = b.
Proof. intros H. exact (f_equal (@data Qc) H). Qed.

(** X1.  [join_params] of two vectors of equal length succeeds and
    [split_params] gives the two vectors back; with different lengths
    [join_params] raises. *)
Theorem split_join_roundtrip
        (m : RandomlyAdaptiveMutator.t) (p sd : list Qc) :
  (length p = length sd ->
   exists full,
     RandomlyAdaptiveMutator.join_params m p sd = Some full /\
     length full = (2 * length p)%nat /\
     RandomlyAdaptiveMutator.split_params m (vec full) =
     Some (vec p, vec sd)) /\
  (length p <> length sd ->
   RandomlyAdaptiveMutator.join_params m p sd = None).
Proof.
  split.
  - intros H. exists (interleave p sd).
    split; [apply join_params_same; exact H|].
    split; [apply interleave_length; exact H|].
    apply split_interleave; exact H.
  - intros H. unfold RandomlyAdaptiveMutator.join_params, column_stack.
    rewrite (proj2 (Nat.eqb_neq _ _) H). reflexivity.
Qed.

Lemma split_join_roundtrip_witness :
  length [of_nat 1; of_nat 2] = length [of_nat 3; of_nat 4] /\
  length [of_nat 1; of_nat 2] <> length [of_nat 3] /\
  (exists full,
      RandomlyAdaptiveMutator.join_params
        (RandomlyAdaptiveMutator.make (frac 1 10) None)
        [of_nat 1; of_nat 2] [of_nat 3; of_nat 4] = Some full /\
      RandomlyAdaptiveMutator.split_params
        (RandomlyAdaptiveMutator.make (frac 1 10) None) (vec full) =
      Some (vec [of_nat 1; of_nat 2], vec [of_nat 3; of_nat 4])) /\
  RandomlyAdaptiveMutator.join_params
    (RandomlyAdaptiveMutator.make (frac 1 10) None)
    [of_nat 1; of_nat 2] [of_nat 3] = None.
Proof.
  assert (H1 : length [of_nat 1; of_nat 2] = length [of_nat 3; of_nat 4])
    by reflexivity.
  assert (H2 : length [of_nat 1; of_nat 2] <> length [of_nat 3])
    by (simpl; lia).
  split; [exact H1|]. split; [exact H2|].
  split.
  - destruct (proj1 (split_join_roundtrip
                       (RandomlyAdaptiveMutator.make (frac 1 10) None)
                       [of_nat 1; of_nat 2] [of_nat 3; of_nat 4]) H1)
      as [full [Hj [_ Hs]]].
    exists full. split; assumption.
  - exact (proj2 (split_join_roundtrip
                    (RandomlyAdaptiveMutator.make (frac 1 10) None)
                    [of_nat 1; of_nat 2] [of_nat 3]) H2).
Defined.

(** X2.  Whenever [split_params] accepts a vector [p], the vector has even
    length, both components have half that length, and [join_params] of the
    two components is [p] again. *)
Theorem join_split_roundtrip
        (m : RandomlyAdaptiveMutator.t) (p : list Qc) (mu sd : ndarray Qc) :
  RandomlyAdaptiveMutator.split_params m (vec p) = Some (mu, sd) ->
  length p = (2 * length (data mu))%nat /\
  length (data mu) = length (data sd) /\
  shape mu = [length (data mu)] /\ shape sd = [length (data sd)] /\
  RandomlyAdaptiveMutator.join_params m (data mu) (data sd) = Some p.
Proof.
  intros H.
  destruct (@split_params_vec_inv m p mu sd H) as [-> [-> [Heo Hlen]]].
  cbn [data shape vec].
  split; [lia|]. split; [exact Heo|].
  split; [reflexivity|]. split; [reflexivity|].
  rewrite join_params_same by exact Heo.
  f_equal. apply (@interleave_evens_odds _ p (length (odds p))). exact Hlen.
Qed.

Lemma join_split_roundtrip_witness :
  let m := RandomlyAdaptiveMutator.make (frac 1 10) None in
  let p := [of_nat 1; of_nat 3; of_nat 2; of_nat 4] in
  RandomlyAdaptiveMutator.split_params m (vec p) =
  Some (vec [of_nat 1; of_nat 2], vec [of_nat 3; of_nat 4]) /\
  RandomlyAdaptiveMutator.join_params
    m [of_nat 1; of_nat 2] [of_nat 3; of_nat 4] = Some p.
Proof.
  intros m p.
  assert (H : RandomlyAdaptiveMutator.split_params m (vec p) =
              Some (vec [of_nat 1; of_nat 2], vec [of_nat 3; of_nat 4]))
    by reflexivity.
  split; [exact H|].
  exact (proj2 (proj2 (proj2 (proj2 (join_split_roundtrip m p H))))).
Defined.

(** ** RandomlyAdaptiveMutator.mutate, element by element *)

Section AdaptiveMutateFacts.

Variable R : JaxRandom.
Variable m : RandomlyAdaptiveMutator.t.

(** [mutate] written out on a vector that splits into [(mu, sd)]. *)
Lemma mutate_unfold (k : key R) (p : list Qc) (mu sd : ndarray Qc)
      (dmu dsd : list Qc) :
  RandomlyAdaptiveMutator.split_params m (vec p) = Some (mu, sd) ->
  RandomlyAdaptiveMutator.deltas m k (length (data sd)) (data sd) =
  Some (dmu, dsd) ->
  length (data mu) = length (data sd) /\
  length dmu = length (data sd) /\ length dsd = length (data sd) /\
  RandomlyAdaptiveMutator.mutate m k p =
  Some (interleave
          (map2 Qcplus (data mu) dmu)
          (map (clip (RandomlyAdaptiveMutator.min_sd m)
                     (RandomlyAdaptiveMutator.max_sd m))
               (map2 Qcplus (data sd) dsd))).
Proof.
  intros Hs Hd.
  destruct (@split_params_vec_inv m p mu sd Hs) as [Emu [Esd [Heo Hlen]]].
  subst mu sd. cbn [data vec] in *.
  destruct (@deltas_total R m k (odds p)) as [dmu' [dsd' [Hd' [Hl1 Hl2]]]].
  rewrite Hd in Hd'. injection Hd' as <- <-.
  split; [exact Heo|]. split; [exact Hl1|]. split; [exact Hl2|].
  unfold RandomlyAdaptiveMutator.mutate. rewrite Hs.
  cbn [shape data vec size_of fold_right].
  rewrite Nat.mul_1_r, Hd.
  rewrite ew_same by congruence.
  rewrite ew_same by congruence.
  apply join_params_same.
  rewrite length_map, !map2_length by congruence. exact Heo.
Qed.

End AdaptiveMutateFacts.

(** X3.  [mutate] keeps the length of an accepted vector, so its result is
    accepted again: a second [mutate], under any key, succeeds on it and
    keeps the length too. *)
Theorem adaptive_mutate_length_closed
        (R : JaxRandom) (m : RandomlyAdaptiveMutator.t) (k1 k2 : key R)
        (p : list Qc) (mu sd : ndarray Qc) :
  RandomlyAdaptiveMutator.split_params m (vec p) = Some (mu, sd) ->
  exists out out2,
    RandomlyAdaptiveMutator.mutate m k1 p = Some out /\
    length out = length p /\
    RandomlyAdaptiveMutator.mutate m k2 out = Some out2 /\
    length out2 = length p.
Proof.
  intros Hs.
  assert (Step : forall (k : key R) (q : list Qc) (a b : ndarray Qc),
             RandomlyAdaptiveMutator.split_params m (vec q) = Some (a, b) ->
             exists o a' b',
               RandomlyAdaptiveMutator.mutate m k q = Some o /\
               length o = length q /\
               RandomlyAdaptiveMutator.split_params m (vec o) =
               Some (a', b')).
  { intros k q a b Hq.
    destruct (@deltas_total R m k (data b)) as [dmu [dsd [Hd [L1 L2]]]].
    destruct (@mutate_unfold R m k q a b dmu dsd Hq Hd)
      as [Hab [_ [_ Hm]]].
    assert (Hlen : length q = (2 * length (data b))%nat).
    { destruct (@split_params_vec_inv m q a b Hq) as [_ [-> [_ Hq2]]].
      exact Hq2. }
    assert (Hj : length (map2 Qcplus (data a) dmu) =
                 length (map (clip (RandomlyAdaptiveMutator.min_sd m)
                                   (RandomlyAdaptiveMutator.max_sd m))
                             (map2 Qcplus (data b) dsd)))
      by (rewrite length_map, !map2_length by congruence; exact Hab).
    do 3 eexists. split; [exact Hm|]. split.
    - rewrite interleave_length by exact Hj.
      rewrite map2_length by congruence. lia.
    - apply split_interleave. exact Hj. }
  destruct (Step k1 p mu sd Hs) as [out [a [b [Hm [Hl Ho]]]]].
  destruct (Step k2 out a b Ho) as [out2 [_ [_ [Hm2 [Hl2 _]]]]].
  exists out, out2. repeat split; congruence.
Qed.

Lemma adaptive_mutate_length_closed_witness :
  let m := RandomlyAdaptiveMutator.make (frac 1 10) (Some (frac 1 2)) in
  let p := [of_nat 5; frac 1 10; of_nat 7; of_nat 1] in
  RandomlyAdaptiveMutator.split_params m (vec p) =
  Some (vec [of_nat 5; of_nat 7], vec [frac 1 10; of_nat 1]) /\
  exists out out2,
    RandomlyAdaptiveMutator.mutate (R := demo_random) m 0%nat p = Some out /\
    length out = 4%nat /\
    RandomlyAdaptiveMutator.mutate (R := demo_random) m 1%nat out =
    Some out2 /\
    length out2 = 4%nat.
Proof.
  intros m p.
  assert (Hs : RandomlyAdaptiveMutator.split_params m (vec p) =
               Some (vec [of_nat 5; of_nat 7], vec [frac 1 10; of_nat 1]))
    by reflexivity.
  split; [exact Hs|].
  exact (@adaptive_mutate_length_closed demo_random m 0%nat 1%nat p _ _ Hs).
Defined.

Section DeltaElements.

Variable R : JaxRandom.
Variable m : RandomlyAdaptiveMutator.t.

Lemma nth_error_raw_dmu (k : key R) (sd : list Qc) (i : nat) (s : Qc) :
  nth_error sd i = Some s ->
  nth_error (raw_dmu k sd) i =
  Some (truncated_normal R (key1 k) (- of_nat 3) (of_nat 3) (length sd) i
        * s).
Proof.
  intros Hs.
  assert (Hi : (i < length sd)%nat)
    by (apply nth_error_Some; rewrite Hs; discriminate).
  unfold raw_dmu. rewrite nth_error_map2, nth_error_draw by exact Hi.
  rewrite Hs. reflexivity.
Qed.

Lemma nth_error_raw_dsd (k : key R) (sd : list Qc) (i : nat) (s : Qc) :
  nth_error sd i = Some s ->
  nth_error (raw_dsd m k sd) i =
  Some (truncated_normal R (key2 k) (- of_nat 3) (of_nat 3) (length sd) i
        * s * RandomlyAdaptiveMutator.meta_sd_perc m).
Proof.
  intros Hs.
  assert (Hi : (i < length sd)%nat)
    by (apply nth_error_Some; rewrite Hs; discriminate).
  unfold raw_dsd.
  rewrite nth_error_map, nth_error_map2, nth_error_draw by exact Hi.
  rewrite Hs. reflexivity.
Qed.

Lemma nth_error_mask_of (c : Qc) (k : key R) (n i : nat) :
  (i < n)%nat ->
  nth_error (mask_of c k n) i =
  Some (astype_float (Qcltb (uniform R (key3 k) n i) c)).
Proof.
  intros Hi. unfold mask_of.
  rewrite nth_error_map, nth_error_draw by exact Hi. reflexivity.
Qed.

End DeltaElements.

(** X4.  With [change_perc = c], a parameter whose uniform sample is not
    below [c] is not selected: [mutate] returns its value unchanged and its
    std-dev clipped to the bounds, hence unchanged too when it was within
    them. *)
Theorem adaptive_unselected_pair_kept
        (R : JaxRandom) (m : RandomlyAdaptiveMutator.t) (c : Qc)
        (k : key R) (p : list Qc) (mu sd : ndarray Qc)
        (i : nat) (x s : Qc) :
  RandomlyAdaptiveMutator.change_perc m = Some c ->
  RandomlyAdaptiveMutator.split_params m (vec p) = Some (mu, sd) ->
  nth_error (data mu) i = Some x ->
  nth_error (data sd) i = Some s ->
  c <= uniform R (key3 k) (length (data sd)) i ->
  exists out,
    RandomlyAdaptiveMutator.mutate m k p = Some out /\
    nth_error out (2 * i) = Some x /\
    nth_error out (2 * i + 1) =
    Some (clip (RandomlyAdaptiveMutator.min_sd m)
               (RandomlyAdaptiveMutator.max_sd m) s) /\
    (sd_in_bounds m s -> nth_error out (2 * i + 1) = Some s).
Proof.
  intros Hc Hs Hx Hsd Hu.
  pose proof (@deltas_masked R m c k (data sd) Hc) as Hd.
  set (dmu := map2 Qcmult (raw_dmu k (data sd))
                   (mask_of c k (length (data sd)))) in *.
  set (dsd := map2 Qcmult (raw_dsd m k (data sd))
                   (mask_of c k (length (data sd)))) in *.
  destruct (@mutate_unfold R m k p mu sd dmu dsd Hs Hd)
    as [Hab [L1 [L2 Hm]]].
  assert (Hi : (i < length (data sd))%nat)
    by (apply nth_error_Some; rewrite Hsd; discriminate).
  assert (Hmask : nth_error (mask_of c k (length (data sd))) i = Some 0).
  { rewrite nth_error_mask_of by exact Hi.
    rewrite (proj2 (Qcltb_false _ _) Hu). reflexivity. }
  assert (Edmu : nth_error dmu i = Some 0).
  { unfold dmu. rewrite nth_error_map2, Hmask.
    rewrite (@nth_error_raw_dmu R k _ _ _ Hsd). f_equal. ring. }
  assert (Edsd : nth_error dsd i = Some 0).
  { unfold dsd. rewrite nth_error_map2, Hmask.
    rewrite (@nth_error_raw_dsd R m k _ _ _ Hsd). f_equal. ring. }
  assert (Hj : length (map2 Qcplus (data mu) dmu) =
               length (map (clip (RandomlyAdaptiveMutator.min_sd m)
                                 (RandomlyAdaptiveMutator.max_sd m))
                           (map2 Qcplus (data sd) dsd))).
  { rewrite length_map. rewrite !map2_length by congruence. exact Hab. }
  assert (Eodd : nth_error
                   (interleave
                      (map2 Qcplus (data mu) dmu)
                      (map (clip (RandomlyAdaptiveMutator.min_sd m)
                                 (RandomlyAdaptiveMutator.max_sd m))
                           (map2 Qcplus (data sd) dsd)))
                   (2 * i + 1) =
                 Some (clip (RandomlyAdaptiveMutator.min_sd m)
                            (RandomlyAdaptiveMutator.max_sd m) s)).
  { rewrite nth_error_interleave_odd by exact Hj.
    rewrite nth_error_map, nth_error_map2, Hsd, Edsd. cbn [option_map].
    rewrite Qcplus_0_r. reflexivity. }
  eexists. split; [exact Hm|].
  split; [|split].
  - rewrite nth_error_interleave_even by exact Hj.
    rewrite nth_error_map2, Hx, Edmu. rewrite Qcplus_0_r. reflexivity.
  - exact Eodd.
  - intros [B1 B2]. rewrite Eodd. f_equal. apply clip_id; assumption.
Qed.

Lemma adaptive_unselected_pair_kept_witness :
  let m := RandomlyAdaptiveMutator.make (frac 1 10) (Some (frac 1 2)) in
  let p := [of_nat 5; frac 1 10; of_nat 7; of_nat 1] in
  RandomlyAdaptiveMutator.change_perc m = Some (frac 1 2) /\
  RandomlyAdaptiveMutator.split_params m (vec p) =
  Some (vec [of_nat 5; of_nat 7], vec [frac 1 10; of_nat 1]) /\
  frac 1 2 <= uniform demo_random (key3 (R := demo_random) 0%nat) 2 1 /\
  exists out,
    RandomlyAdaptiveMutator.mutate (R := demo_random) m 0%nat p = Some out /\
    nth_error out 2 = Some (of_nat 7) /\
    nth_error out 3 = Some (of_nat 1).
Proof.
  intros m p.
  assert (Hs : RandomlyAdaptiveMutator.split_params m (vec p) =
               Some (vec [of_nat 5; of_nat 7], vec [frac 1 10; of_nat 1]))
    by reflexivity.
  assert (Hu : frac 1 2 <=
               uniform demo_random (key3 (R := demo_random) 0%nat) 2 1)
    by (vm_compute; discriminate).
  split; [reflexivity|]. split; [exact Hs|]. split; [exact Hu|].
  destruct (@adaptive_unselected_pair_kept
              demo_random m (frac 1 2) 0%nat p _ _ 1%nat
              (of_nat 7) (of_nat 1) eq_refl Hs eq_refl eq_refl Hu)
    as [out [Hm [Hx [_ Hb]]]].
  exists out. split; [exact Hm|]. split; [exact Hx|].
  apply Hb. split; vm_compute; discriminate.
Defined.

(** X6.  With [change_perc = 0] no parameter is selected: on an accepted
    vector whose std-devs are within the bounds, [mutate] returns the vector
    itself. *)
Theorem adaptive_mutate_identity
        (R : JaxRandom) (m : RandomlyAdaptiveMutator.t) (k : key R)
        (p : list Qc) (mu sd : ndarray Qc) :
  JaxRandomOk R ->
  RandomlyAdaptiveMutator.change_perc m = Some 0 ->
  RandomlyAdaptiveMutator.split_params m (vec p) = Some (mu, sd) ->
  Forall (sd_in_bounds m) (data sd) ->
  RandomlyAdaptiveMutator.mutate m k p = Some p.
Proof.
  intros HR Hc Hs Hb.
  pose proof (@deltas_masked R m 0 k (data sd) Hc) as Hd.
  assert (Hz : Forall (fun d => d = 0) (mask_of 0 k (length (data sd)))).
  { unfold mask_of. apply Forall_map. intros u Hin.
    apply In_draw in Hin. destruct Hin as [i [_ ->]].
    rewrite (proj2 (Qcltb_false _ _)
                   (proj1 (uniform_range HR (key3 k) _ i))).
    reflexivity. }
  destruct (@mutate_unfold R m k p mu sd _ _ Hs Hd) as [Hab [L1 [L2 Hm]]].
  rewrite Hm. f_equal.
  rewrite map2_plus_zero
    by (try apply map2_mult_zero_r; congruence || exact Hz).
  rewrite map2_plus_zero
    by (try apply map2_mult_zero_r; congruence || exact Hz).
  assert (Hclip : map (clip (RandomlyAdaptiveMutator.min_sd m)
                            (RandomlyAdaptiveMutator.max_sd m)) (data sd)
                  = data sd).
  { clear - Hb. induction Hb as [|s l [B1 B2] _ IH]; simpl; [reflexivity|].
    rewrite IH, clip_id by assumption. reflexivity. }
  rewrite Hclip.
  destruct (@split_params_vec_inv m p mu sd Hs) as [-> [-> [_ Hlen]]].
  cbn [data vec]. apply (@interleave_evens_odds _ p _ Hlen).
Qed.

Lemma adaptive_mutate_identity_witness :
  let m := RandomlyAdaptiveMutator.make (frac 1 10) (Some 0) in
  let p := [of_nat 5; frac 1 10; of_nat 7; of_nat 1] in
  JaxRandomOk demo_random /\
  RandomlyAdaptiveMutator.change_perc m = Some 0 /\
  RandomlyAdaptiveMutator.split_params m (vec p) =
  Some (vec [of_nat 5; of_nat 7], vec [frac 1 10; of_nat 1]) /\
  Forall (sd_in_bounds m) [frac 1 10; of_nat 1] /\
  RandomlyAdaptiveMutator.mutate (R := demo_random) m 0%nat p = Some p.
Proof.
  intros m p.
  assert (Hs : RandomlyAdaptiveMutator.split_params m (vec p) =
               Some (vec [of_nat 5; of_nat 7], vec [frac 1 10; of_nat 1]))
    by reflexivity.
  assert (Hb : Forall (sd_in_bounds m) [frac 1 10; of_nat 1])
    by (repeat constructor; vm_compute; discriminate).
  split; [exact demo_random_ok|]. split; [reflexivity|].
  split; [exact Hs|]. split; [exact Hb|].
  exact (@adaptive_mutate_identity demo_random m 0%nat p _ _
           demo_random_ok eq_refl Hs Hb).
Defined.






(** ** BasicMutator.mutate, element by element *)

(** X7.  [BasicMutator.mutate] always succeeds and keeps the length.
    Parameter [i] is returned unchanged when its uniform sample is not below
    [change_perc], and becomes [p[i] + z * sd], with [z] its normal sample,
    when the sample is below [change_perc]. *)
Theorem basic_mutate_elementwise
        (R : JaxRandom) (m : BasicMutator.t) (k : key R)
        (p : list Qc) (i : nat) (x : Qc) :
  nth_error p i = Some x ->
  let z := normal R (fst (split R k)) (length p) i in
  let u := uniform R (snd (split R k)) (length p) i in
  exists out,
    BasicMutator.mutate m k p = Some out /\
    length out = length p /\
    (BasicMutator.change_perc m <= u -> nth_error out i = Some x) /\
    (u < BasicMutator.change_perc m ->
     nth_error out i = Some (x + z * BasicMutator.sd m)).
Proof.
  intros Hx z u.
  assert (Hi : (i < length p)%nat)
    by (apply nth_error_Some; rewrite Hx; discriminate).
  destruct (@basic_delta_length R m k (length p)) as [dp [Hd Hl]].
  assert (Edp : nth_error dp i =
                Some (z * BasicMutator.sd m *
                      astype_float (Qcltb u (BasicMutator.change_perc m)))).
  { revert Hd. unfold BasicMutator.delta. subst z u.
    destruct (split R k) as [k1 k2]. cbn [fst snd].
    rewrite ew_same by (rewrite !length_map, !draw_length; reflexivity).
    intros E. injection E as <-.
    rewrite nth_error_map2, !nth_error_map, !nth_error_draw by exact Hi.
    reflexivity. }
  exists (map2 Qcplus p dp).
  split.
  { unfold BasicMutator.mutate. rewrite Hd.
    apply ew_same. congruence. }
  split; [apply map2_length; congruence|].
  split.
  - intros Hu. rewrite nth_error_map2, Hx, Edp.
    rewrite (proj2 (Qcltb_false _ _) Hu). f_equal.
    cbn [astype_float]. ring.
  - intros Hu. rewrite nth_error_map2, Hx, Edp.
    rewrite (proj2 (Qcltb_true _ _) Hu). f_equal.
    cbn [astype_float]. ring.
Qed.

Lemma basic_mutate_elementwise_witness :
  nth_error [of_nat 1; of_nat 2; of_nat 3] 1 = Some (of_nat 2) /\
  exists out,
    BasicMutator.mutate (R := demo_random)
                        (BasicMutator.mk (of_nat 2) (frac 1 2)) 3%nat
                        [of_nat 1; of_nat 2; of_nat 3] = Some out /\
    length out = 3%nat.
Proof.
  split; [reflexivity|].
  destruct (@basic_mutate_elementwise
              demo_random (BasicMutator.mk (of_nat 2) (frac 1 2)) 3%nat
              [of_nat 1; of_nat 2; of_nat 3] 1%nat (of_nat 2) eq_refl)
    as [out [Hm [Hl _]]].
  exists out. split; assumption.
Defined.

(** The vector of the witness: the uniform samples of positions 0 and 1
    (0 and 1/4) are below 1/2, that of position 2 (1/2) is not; the normal
    samples are -1 and -1/2. *)
Example basic_mutate_example :
  option_map (map this)
    (BasicMutator.mutate (R := demo_random)
                         (BasicMutator.mk (of_nat 2) (frac 1 2)) 3%nat
                         [of_nat 1; of_nat 2; of_nat 3]) =
  Some [(-1 # 1)%Q; (1 # 1)%Q; (3 # 1)%Q].
Proof. vm_compute. reflexivity. Qed.

(** ** valuenoise1d: shape of the signal *)

Lemma of_nat_0 : of_nat 0 = 0.
Proof. apply Qc_is_canon. reflexivity. Qed.


Lemma interp_0 (mode : string) : interp mode 0 = 0.
Proof.
  unfold interp. destruct (String.eqb mode "cubic"); [|reflexivity].
  unfold smoothstep. ring.
Qed.


(** X9.  At the start of every segment the signal is the gradient of that
    segment, in both interpolation modes: with [r = ceil_div n (f - 1)],
    element [j * r] is gradient [j]. *)
Theorem valuenoise1d_segment_starts
        (R : JaxRandom) (k : key R) (f n : nat) (mode : string) (j : nat) :
  (2 <= f)%nat ->
  (j * ceil_div n (f - 1) < n)%nat ->
  exists out,
    valuenoise1d k f n mode = Some out /\
    nth_error out (j * ceil_div n (f - 1)) = Some (gradient k f j).
Proof.
  intros Hf Hj.
  destruct (@valuenoise1d_spec R k f n mode Hf) as [out [Ho [_ Hn]]].
  exists out. split; [exact Ho|].
  destruct (Hn _ Hj) as [_ [Hm He]]. cbv zeta in He.
  assert (Hr : (ceil_div n (f - 1) <> 0)%nat) by lia.
  rewrite Nat.div_mul in He by exact Hr.
  rewrite Nat.Div0.mod_mul in He.
  rewrite He. f_equal.
  rewrite of_nat_0.
  replace (0 / of_nat (ceil_div n (f - 1))) with 0
    by (unfold Qcdiv; ring).
  rewrite interp_0. ring.
Qed.

Lemma valuenoise1d_segment_starts_witness :
  (2 <= 4)%nat /\ (1 * ceil_div 10 (4 - 1) < 10)%nat /\
  exists out,
    valuenoise1d (R := demo_random) 3%nat 4 10 "cubic" = Some out /\
    nth_error out 4 = Some (gradient (R := demo_random) 3%nat 4 1).
Proof.
  assert (H1 : (2 <= 4)%nat) by lia.
  assert (H2 : (1 * ceil_div 10 (4 - 1) < 10)%nat) by (vm_compute; lia).
  split; [exact H1|]. split; [exact H2|].
  exact (@valuenoise1d_segment_starts demo_random 3%nat 4 10 "cubic" 1
           H1 H2).
Defined.





(** ** CrossOverSexualMutator *)

Section CrossOverFacts.

Variable R : JaxRandom.
Variable M : Type.
Context {MM : Mutator R M}.
Variable self : CrossOverSexualMutator.t M.

(** [new_p] for two parents of equal length. *)
Lemma recombine_elements (ku : key R) (p1 p2 : list Qc) :
  (2 <= CrossOverSexualMutator.n_frequencies self)%nat ->
  length p1 = length p2 ->
  exists noise new_p,
    valuenoise1d ku (CrossOverSexualMutator.n_frequencies self)
                 (length p1) "linear" = Some noise /\
    length noise = length p1 /\
    CrossOverSexualMutator.recombine self ku p1 p2 = Some new_p /\
    length new_p = length p1 /\
    forall i x y v,
      nth_error p1 i = Some x -> nth_error p2 i = Some y ->
      nth_error noise i = Some v ->
      nth_error new_p i = Some (if Qcltb 0 v then x else y).
Proof.
  intros Hf Hlen.
  destruct (@valuenoise1d_spec R ku _ (length p1) "linear" Hf)
    as [noise [Hn [Hl _]]].
  set (mask := map (fun v => Qcltb 0 v) noise).
  exists noise,
    (map2 Qcplus
          (map2 Qcmult (map astype_float mask) p1)
          (map2 Qcmult (map (fun b => 1 - astype_float b) mask) p2)).
  split; [exact Hn|]. split; [exact Hl|].
  unfold CrossOverSexualMutator.recombine. rewrite Hn. fold mask.
  assert (Hmask : length mask = length p1)
    by (unfold mask; rewrite length_map; exact Hl).
  assert (H1 : length (map astype_float mask) = length p1)
    by (rewrite length_map; exact Hmask).
  assert (H2 : length (map (fun b => 1 - astype_float b) mask) = length p2)
    by (rewrite length_map; congruence).
  rewrite ew_same by exact H1.
  rewrite ew_same by exact H2.
  assert (H3 : length (map2 Qcmult (map astype_float mask) p1) = length p1)
    by (rewrite map2_length; congruence).
  assert (H4 : length (map2 Qcmult
                            (map (fun b => 1 - astype_float b) mask) p2)
               = length p1)
    by (rewrite map2_length; congruence).
  rewrite ew_same by congruence.
  split; [reflexivity|].
  split; [rewrite map2_length; congruence|].
  intros i x y v Hx Hy Hv.
  rewrite !nth_error_map2, !nth_error_map. unfold mask.
  rewrite nth_error_map, Hv, Hx, Hy. cbn [option_map].
  f_equal. destruct (Qcltb 0 v); cbn [astype_float]; ring.
Qed.

End CrossOverFacts.

(** X12.  For parents of equal length and [n_frequencies >= 2], every
    element of the recombined vector is taken from one parent: from [p1]
    where the noise is positive, from [p2] elsewhere.  [mutate] hands that
    vector to the wrapped mutator, under the first key of the second
    split. *)
Theorem crossover_selects_from_parents
        (R : JaxRandom) (M : Type) (MM : Mutator R M)
        (self : CrossOverSexualMutator.t M) (k : key R)
        (p1 p2 : list Qc) :
  (2 <= CrossOverSexualMutator.n_frequencies self)%nat ->
  length p1 = length p2 ->
  exists noise new_p,
    valuenoise1d (fst (split R k))
                 (CrossOverSexualMutator.n_frequencies self)
                 (length p1) "linear" = Some noise /\
    CrossOverSexualMutator.recombine self (fst (split R k)) p1 p2 =
    Some new_p /\
    length new_p = length p1 /\
    (forall i x y v,
        nth_error p1 i = Some x -> nth_error p2 i = Some y ->
        nth_error noise i = Some v ->
        nth_error new_p i = Some (if Qcltb 0 v then x else y)) /\
    CrossOverSexualMutator.mutate self k p1 p2 =
    mutate (CrossOverSexualMutator.mutator self)
           (fst (split R (snd (split R k)))) new_p.
Proof.
  intros Hf Hlen.
  destruct (@recombine_elements R M self (fst (split R k)) p1 p2 Hf Hlen)
    as [noise [new_p [Hn [_ [Hr [Hl He]]]]]].
  exists noise, new_p.
  split; [exact Hn|]. split; [exact Hr|]. split; [exact Hl|].
  split; [exact He|].
  unfold CrossOverSexualMutator.mutate.
  destruct (split R k) as [ku k1]. cbn [fst snd] in *.
  rewrite Hr. destruct (split R k1) as [ku2 k2]. reflexivity.
Qed.

Lemma crossover_selects_from_parents_witness :
  let self := CrossOverSexualMutator.make
                (BasicMutator.mk (of_nat 2) (frac 1 2)) in
  let p1 := map of_nat [1; 2; 3; 4; 5; 6]%nat in
  let p2 := map of_nat [11; 12; 13; 14; 15; 16]%nat in
  (2 <= CrossOverSexualMutator.n_frequencies self)%nat /\
  length p1 = length p2 /\
  exists new_p,
    CrossOverSexualMutator.recombine (R := demo_random) self 7%nat p1 p2 =
    Some new_p /\
    length new_p = 6%nat.
Proof.
  intros self p1 p2.
  assert (Hf : (2 <= CrossOverSexualMutator.n_frequencies self)%nat)
    by (simpl; lia).
  assert (Hl : length p1 = length p2) by reflexivity.
  split; [exact Hf|]. split; [exact Hl|].
  destruct (@crossover_selects_from_parents
              demo_random _ _ self 3%nat p1 p2 Hf Hl)
    as [noise [new_p [_ [Hr [Hn _]]]]].
  exists new_p. split; assumption.
Defined.

(** The recombined vector of the witness: the noise is positive at
    positions 0 and 4 only (at position 3 it is 0, which selects [p2]). *)
Example crossover_recombine_example :
  option_map (map this)
    (CrossOverSexualMutator.recombine
       (R := demo_random)
       (CrossOverSexualMutator.make (BasicMutator.mk (of_nat 2) (frac 1 2)))
       7%nat (map of_nat [1; 2; 3; 4; 5; 6]%nat)
       (map of_nat [11; 12; 13; 14; 15; 16]%nat)) =
  Some [(1 # 1)%Q; (12 # 1)%Q; (13 # 1)%Q; (14 # 1)%Q; (5 # 1)%Q;
        (16 # 1)%Q].
Proof. vm_compute. reflexivity. Qed.

Section Broadcast.

Variables A B C : Type.
Variable f : A -> B -> C.

Lemma ew_mismatch (x : list A) (y : list B) :
  length x <> length y -> length x <> 1%nat -> length y <> 1%nat ->
  ew f x y = None.
Proof.
  intros H Hx Hy. unfold ew.
  rewrite (proj2 (Nat.eqb_neq _ _) H).
  destruct x as [|a [|a' x]]; destruct y as [|b [|b' y]];
    simpl in *; try reflexivity; congruence.
Qed.

Lemma ew_broadcast_r (x : list A) (b : B) :
  length x <> 1%nat -> ew f x [b] = Some (map (fun a => f a b) x).
Proof.
  intros Hx. unfold ew.
  rewrite (proj2 (Nat.eqb_neq (length x) (length [b])) Hx).
  destruct x as [|a [|a' x]]; simpl in *; try reflexivity; congruence.
Qed.

End Broadcast.

(** X13.  Parents of different lengths, neither of length 1, make [mutate]
    raise (for [n_frequencies >= 2] the failure is the shape mismatch of the
    recombination). *)
Theorem crossover_length_mismatch_raises
        (R : JaxRandom) (M : Type) (MM : Mutator R M)
        (self : CrossOverSexualMutator.t M) (k : key R)
        (p1 p2 : list Qc) :
  (2 <= CrossOverSexualMutator.n_frequencies self)%nat ->
  length p1 <> length p2 ->
  length p1 <> 1%nat ->
  length p2 <> 1%nat ->
  CrossOverSexualMutator.mutate self k p1 p2 = None.
Proof.
  intros Hf Hne H1 H2.
  unfold CrossOverSexualMutator.mutate, CrossOverSexualMutator.recombine.
  destruct (split R k) as [ku k1].
  destruct (@valuenoise1d_spec R ku _ (length p1) "linear" Hf)
    as [noise [Hn [Hl _]]].
  rewrite Hn.
  rewrite ew_same by (rewrite !length_map; exact Hl).
  rewrite ew_mismatch; [reflexivity | | | exact H2];
    rewrite !length_map, Hl; assumption.
Qed.

Lemma crossover_length_mismatch_raises_witness :
  let self := CrossOverSexualMutator.make
                (BasicMutator.mk (of_nat 2) (frac 1 2)) in
  (2 <= CrossOverSexualMutator.n_frequencies self)%nat /\
  length [of_nat 1; of_nat 2; of_nat 3] <> length [of_nat 4; of_nat 5] /\
  CrossOverSexualMutator.mutate
    (R := demo_random) self 3%nat
    [of_nat 1; of_nat 2; of_nat 3] [of_nat 4; of_nat 5] = None.
Proof.
  intros self.
  assert (Hf : (2 <= CrossOverSexualMutator.n_frequencies self)%nat)
    by (simpl; lia).
  assert (Hne : length [of_nat 1; of_nat 2; of_nat 3] <>
                length [of_nat 4; of_nat 5]) by (simpl; lia).
  split; [exact Hf|]. split; [exact Hne|].
  apply (@crossover_length_mismatch_raises demo_random _ _ self 3%nat
           [of_nat 1; of_nat 2; of_nat 3] [of_nat 4; of_nat 5] Hf Hne);
    simpl; lia.
Defined.

(** X14.  A second parent of length 1 is not rejected: its single element
    is broadcast.  For [n_frequencies >= 2] and a first parent whose length
    is not 1, the recombined vector has the length of [p1] and holds
    [p1[i]] where the noise is positive and the element of [p2]
    elsewhere; that vector goes to the wrapped mutator. *)
Theorem crossover_broadcasts_single_parent
        (R : JaxRandom) (M : Type) (MM : Mutator R M)
        (self : CrossOverSexualMutator.t M) (k : key R)
        (p1 : list Qc) (y : Qc) :
  (2 <= CrossOverSexualMutator.n_frequencies self)%nat ->
  length p1 <> 1%nat ->
  exists noise new_p,
    valuenoise1d (fst (split R k))
                 (CrossOverSexualMutator.n_frequencies self)
                 (length p1) "linear" = Some noise /\
    CrossOverSexualMutator.recombine self (fst (split R k)) p1 [y] =
    Some new_p /\
    length new_p = length p1 /\
    (forall i x v,
        nth_error p1 i = Some x -> nth_error noise i = Some v ->
        nth_error new_p i = Some (if Qcltb 0 v then x else y)) /\
    CrossOverSexualMutator.mutate self k p1 [y] =
    mutate (CrossOverSexualMutator.mutator self)
           (fst (split R (snd (split R k)))) new_p.
Proof.
  intros Hf H1.
  destruct (@valuenoise1d_spec R (fst (split R k)) _ (length p1)
              "linear" Hf) as [noise [Hn [Hl _]]].
  set (mask := map (fun v => Qcltb 0 v) noise).
  assert (Hmask : length mask = length p1)
    by (unfold mask; rewrite length_map; exact Hl).
  set (a := map2 Qcmult (map astype_float mask) p1).
  set (b := map (fun c => c * y) (map (fun m => 1 - astype_float m) mask)).
  assert (Ha : length a = length p1)
    by (unfold a; rewrite map2_length; rewrite length_map; congruence).
  assert (Hb : length b = length p1)
    by (unfold b; rewrite !length_map; exact Hmask).
  assert (Hr : CrossOverSexualMutator.recombine self (fst (split R k))
                                                p1 [y] =
               Some (map2 Qcplus a b)).
  { unfold CrossOverSexualMutator.recombine. rewrite Hn. fold mask.
    rewrite ew_same by (rewrite length_map; exact Hmask). fold a.
    rewrite ew_broadcast_r by (rewrite length_map; congruence). fold b.
    apply ew_same. congruence. }
  exists noise, (map2 Qcplus a b).
  split; [exact Hn|]. split; [exact Hr|].
  split; [rewrite map2_length; congruence|].
  split.
  - intros i x v Hx Hv. unfold a, b, mask.
    rewrite !nth_error_map2, !nth_error_map, Hv, Hx. cbn [option_map].
    f_equal. destruct (Qcltb 0 v); cbn [astype_float]; ring.
  - unfold CrossOverSexualMutator.mutate.
    destruct (split R k) as [ku k1]. cbn [fst snd] in *.
    rewrite Hr. destruct (split R k1) as [ku2 k2]. reflexivity.
Qed.

Lemma crossover_broadcasts_single_parent_witness :
  let self := CrossOverSexualMutator.make
                (BasicMutator.mk (of_nat 2) (frac 1 2)) in
  let p1 := map of_nat [1; 2; 3; 4; 5; 6]%nat in
  (2 <= CrossOverSexualMutator.n_frequencies self)%nat /\
  length p1 <> 1%nat /\
  exists new_p,
    CrossOverSexualMutator.recombine
      (R := demo_random) self 7%nat p1 [of_nat 9] = Some new_p /\
    length new_p = 6%nat.
Proof.
  intros self p1.
  assert (Hf : (2 <= CrossOverSexualMutator.n_frequencies self)%nat)
    by (simpl; lia).
  assert (H1 : length p1 <> 1%nat) by (simpl; lia).
  split; [exact Hf|]. split; [exact H1|].
  destruct (@crossover_broadcasts_single_parent
              demo_random _ _ self 3%nat p1 (of_nat 9) Hf H1)
    as [noise [new_p [_ [Hr [Hn _]]]]].
  exists new_p. split; assumption.
Defined.

(** The recombined vector of the witness. *)
Example crossover_broadcast_example :
  option_map (map this)
    (CrossOverSexualMutator.recombine
       (R := demo_random)
       (CrossOverSexualMutator.make (BasicMutator.mk (of_nat 2) (frac 1 2)))
       7%nat (map of_nat [1; 2; 3; 4; 5; 6]%nat) [of_nat 9]) =
  Some [(1 # 1)%Q; (9 # 1)%Q; (9 # 1)%Q; (9 # 1)%Q; (5 # 1)%Q; (9 # 1)%Q].
Proof. vm_compute. reflexivity. Qed.

(** X15.  Crossover over RandomlyAdaptiveMutator genomes: for two accepted
    parents of equal length, [n_frequencies >= 2] and [min_sd <= max_sd],
    [mutate] succeeds, the offspring has the length of the parents, it is an
    accepted vector again, and all its std-devs lie within
    [[min_sd, max_sd]]. *)
Theorem crossover_adaptive_offspring
        (R : JaxRandom) (m : RandomlyAdaptiveMutator.t) (f : nat)
        (k : key R) (p1 p2 : list Qc) (mu1 sd1 : ndarray Qc) :
  (2 <= f)%nat ->
  RandomlyAdaptiveMutator.min_sd m <= RandomlyAdaptiveMutator.max_sd m ->
  RandomlyAdaptiveMutator.split_params m (vec p1) = Some (mu1, sd1) ->
  length p1 = length p2 ->
  exists out mu' sd',
    CrossOverSexualMutator.mutate (CrossOverSexualMutator.mk m f) k p1 p2 =
    Some out /\
    length out = length p1 /\
    RandomlyAdaptiveMutator.split_params m (vec out) = Some (mu', sd') /\
    Forall (sd_in_bounds m) (data sd').
Proof.
  intros Hf Hle Hs Hlen.
  destruct (@recombine_elements
              R _ (CrossOverSexualMutator.mk m f) (fst (split R k))
              p1 p2 Hf Hlen)
    as [noise [new_p [_ [_ [Hr [Hl _]]]]]].
  assert (Heven : length new_p = (2 * length (data sd1))%nat).
  { destruct (@split_params_vec_inv m p1 mu1 sd1 Hs) as [_ [-> [_ H]]].
    cbn [data vec]. congruence. }
  pose proof (@split_params_vec m new_p _ Heven) as Hsn.
  destruct (@deltas_total R m (fst (split R (snd (split R k))))
                          (odds new_p))
    as [dmu [dsd [Hd [L1 L2]]]].
  destruct (@mutate_unfold R m _ new_p _ _ dmu dsd Hsn Hd)
    as [Hab [_ [_ Hm]]].
  cbn [data vec] in Hab, Hm.
  assert (Hj : length (map2 Qcplus (evens new_p) dmu) =
               length (map (clip (RandomlyAdaptiveMutator.min_sd m)
                                 (RandomlyAdaptiveMutator.max_sd m))
                           (map2 Qcplus (odds new_p) dsd))).
  { rewrite length_map. rewrite !map2_length by congruence. exact Hab. }
  do 3 eexists. split.
  { unfold CrossOverSexualMutator.mutate.
    destruct (split R k) as [ku k1]. cbn [fst snd] in *.
    rewrite Hr. destruct (split R k1) as [ku2 k2]. cbn [fst snd] in *.
    cbn [mutate RandomlyAdaptiveMutator_Mutator
         CrossOverSexualMutator.mutator].
    exact Hm. }
  split.
  { rewrite interleave_length by exact Hj.
    rewrite map2_length by congruence.
    rewrite (@evens_length _ _ _ Heven).
    rewrite <- Hl. exact (eq_sym Heven). }
  split; [apply split_interleave; exact Hj|].
  cbn [data vec]. apply clip_all_in_bounds, Hle.
Qed.

Lemma crossover_adaptive_offspring_witness :
  let m := RandomlyAdaptiveMutator.make (frac 1 10) (Some (frac 1 2)) in
  let p1 := [of_nat 5; frac 1 10; of_nat 7; of_nat 1] in
  let p2 := [of_nat 6; frac 1 2; of_nat 8; of_nat 2] in
  (2 <= 16)%nat /\
  RandomlyAdaptiveMutator.min_sd m <= RandomlyAdaptiveMutator.max_sd m /\
  RandomlyAdaptiveMutator.split_params m (vec p1) =
  Some (vec [of_nat 5; of_nat 7], vec [frac 1 10; of_nat 1]) /\
  length p1 = length p2 /\
  exists out mu' sd',
    CrossOverSexualMutator.mutate
      (R := demo_random) (CrossOverSexualMutator.mk m 16) 3%nat p1 p2 =
    Some out /\
    length out = 4%nat /\
    RandomlyAdaptiveMutator.split_params m (vec out) = Some (mu', sd') /\
    Forall (sd_in_bounds m) (data sd').
Proof.
  intros m p1 p2.
  assert (Hf : (2 <= 16)%nat) by lia.
  assert (Hle : RandomlyAdaptiveMutator.min_sd m <=
                RandomlyAdaptiveMutator.max_sd m)
    by (vm_compute; discriminate).
  assert (Hs : RandomlyAdaptiveMutator.split_params m (vec p1) =
               Some (vec [of_nat 5; of_nat 7], vec [frac 1 10; of_nat 1]))
    by reflexivity.
  assert (Hl : length p1 = length p2) by reflexivity.
  split; [exact Hf|]. split; [exact Hle|]. split; [exact Hs|].
  split; [exact Hl|].
  exact (@crossover_adaptive_offspring
           demo_random m 16 3%nat p1 p2 _ _ Hf Hle Hs Hl).
Defined.

(** ** More on change_perc, the bounds and the empty genome *)

Lemma map2_mult_ones (x msk : list Qc) :
  length x = length msk -> Forall (fun d => d = 1) msk ->
  map2 Qcmult x msk = x.
Proof.
  revert msk. induction x as [|a x IH]; intros [|b msk] H F; simpl in *;
    try discriminate; [reflexivity|].
  inversion F as [|? ? Hb F']; subst.
  rewrite Qcmult_1_r. f_equal. apply IH; [lia | exact F'].
Qed.

(** X16.  A [change_perc] of 1 or more selects every parameter: [mutate]
    then returns what it returns with [change_perc = None], on every
    input. *)
Theorem adaptive_change_perc_one_is_none
        (R : JaxRandom) (init meta lo hi c : Qc) (k : key R) (p : list Qc) :
  JaxRandomOk R ->
  1 <= c ->
  RandomlyAdaptiveMutator.mutate
    (RandomlyAdaptiveMutator.mk init (Some c) meta lo hi) k p =
  RandomlyAdaptiveMutator.mutate
    (RandomlyAdaptiveMutator.mk init None meta lo hi) k p.
Proof.
  intros HR Hc.
  set (m1 := RandomlyAdaptiveMutator.mk init (Some c) meta lo hi).
  set (m0 := RandomlyAdaptiveMutator.mk init None meta lo hi).
  assert (Hd : forall sd,
             RandomlyAdaptiveMutator.deltas m1 k (length sd) sd =
             RandomlyAdaptiveMutator.deltas m0 k (length sd) sd).
  { intros sd.
    rewrite (@deltas_masked R m1 c k sd eq_refl).
    rewrite (@deltas_unmasked R m0 k sd eq_refl).
    assert (Hones : Forall (fun d => d = 1) (mask_of c k (length sd))).
    { unfold mask_of. apply Forall_map. intros u Hin.
      apply In_draw in Hin. destruct Hin as [i [_ ->]].
      destruct (uniform_range HR (key3 k) (length sd) i) as [_ Hu].
      rewrite (proj2 (Qcltb_true _ _) (Qclt_le_trans _ _ _ Hu Hc)).
      reflexivity. }
    rewrite !map2_mult_ones;
      try exact Hones;
      rewrite ?raw_dmu_length, ?raw_dsd_length, ?mask_of_length;
      reflexivity. }
  unfold RandomlyAdaptiveMutator.mutate.
  change (RandomlyAdaptiveMutator.split_params m1 (vec p))
    with (RandomlyAdaptiveMutator.split_params m0 (vec p)).
  destruct (RandomlyAdaptiveMutator.split_params m0 (vec p))
    as [[mu sd]|] eqn:Hs; [|reflexivity].
  destruct (@split_params_vec_inv m0 p mu sd Hs) as [_ [-> _]].
  cbn [shape data vec size_of fold_right]. rewrite Nat.mul_1_r.
  rewrite Hd. reflexivity.
Qed.

Lemma adaptive_change_perc_one_is_none_witness :
  JaxRandomOk demo_random /\ (1 : Qc) <= 1 /\
  RandomlyAdaptiveMutator.mutate
    (R := demo_random)
    (RandomlyAdaptiveMutator.mk (frac 1 10) (Some 1) (frac 1 10)
                                (Q2Qc (1 # 100000)) (of_nat 10))
    3%nat [of_nat 5; of_nat 1] =
  RandomlyAdaptiveMutator.mutate
    (R := demo_random)
    (RandomlyAdaptiveMutator.mk (frac 1 10) None (frac 1 10)
                                (Q2Qc (1 # 100000)) (of_nat 10))
    3%nat [of_nat 5; of_nat 1].
Proof.
  assert (H : (1 : Qc) <= 1) by apply Qcle_refl.
  split; [exact demo_random_ok|]. split; [exact H|].
  exact (@adaptive_change_perc_one_is_none
           demo_random (frac 1 10) (frac 1 10) (Q2Qc (1 # 100000))
           (of_nat 10) 1 3%nat [of_nat 5; of_nat 1] demo_random_ok H).
Defined.

(** X17.  With [0 < min_sd <= max_sd] no std-dev of a result of [mutate]
    is zero or negative, whatever the std-devs of the input are. *)
Theorem adaptive_sd_stays_positive
        (R : JaxRandom) (m : RandomlyAdaptiveMutator.t) (k : key R)
        (p : list Qc) (mu sd : ndarray Qc) :
  0 < RandomlyAdaptiveMutator.min_sd m ->
  RandomlyAdaptiveMutator.min_sd m <= RandomlyAdaptiveMutator.max_sd m ->
  RandomlyAdaptiveMutator.split_params m (vec p) = Some (mu, sd) ->
  exists out mu' sd',
    RandomlyAdaptiveMutator.mutate m k p = Some out /\
    RandomlyAdaptiveMutator.split_params m (vec out) = Some (mu', sd') /\
    Forall (fun s => 0 < s) (data sd').
Proof.
  intros Hpos Hle Hs.
  destruct (@mutate_split R m k p mu sd Hs) as [dmu [dsd [out [_ [Hm Ho]]]]].
  exists out. do 2 eexists.
  split; [exact Hm|]. split; [exact Ho|].
  cbn [data vec]. apply Forall_map. intros x _.
  destruct (clip_range x Hle) as [H1 _].
  apply (Qclt_le_trans _ _ _ Hpos H1).
Qed.

Lemma adaptive_sd_stays_positive_witness :
  let m := RandomlyAdaptiveMutator.make (frac 1 10) None in
  let p := [of_nat 5; of_nat 0; of_nat 7; - of_nat 1] in
  0 < RandomlyAdaptiveMutator.min_sd m /\
  RandomlyAdaptiveMutator.min_sd m <= RandomlyAdaptiveMutator.max_sd m /\
  RandomlyAdaptiveMutator.split_params m (vec p) =
  Some (vec [of_nat 5; of_nat 7], vec [of_nat 0; - of_nat 1]) /\
  exists out mu' sd',
    RandomlyAdaptiveMutator.mutate (R := demo_random) m 0%nat p = Some out /\
    RandomlyAdaptiveMutator.split_params m (vec out) = Some (mu', sd') /\
    Forall (fun s => 0 < s) (data sd').
Proof.
  intros m p.
  assert (Hpos : 0 < RandomlyAdaptiveMutator.min_sd m)
    by (vm_compute; reflexivity).
  assert (Hle : RandomlyAdaptiveMutator.min_sd m <=
                RandomlyAdaptiveMutator.max_sd m)
    by (vm_compute; discriminate).
  assert (Hs : RandomlyAdaptiveMutator.split_params m (vec p) =
               Some (vec [of_nat 5; of_nat 7], vec [of_nat 0; - of_nat 1]))
    by reflexivity.
  split; [exact Hpos|]. split; [exact Hle|]. split; [exact Hs|].
  exact (@adaptive_sd_stays_positive demo_random m 0%nat p _ _ Hpos Hle Hs).
Defined.

(** X18.  The empty genome goes through every operation: both mutators
    initialise and mutate it to the empty vector, the noise of length 0 is
    empty, and, for [n_frequencies >= 2], crossover of two empty parents
    over either mutator is the empty vector. *)
Theorem empty_genome
        (R : JaxRandom) (b : BasicMutator.t)
        (m : RandomlyAdaptiveMutator.t) (f : nat) (k : key R)
        (mode : string) :
  (2 <= f)%nat ->
  initialize b k [] = Some [] /\
  mutate b k [] = Some [] /\
  initialize m k [] = Some [] /\
  split_params (R := R) m (vec []) = Some (vec [], vec []) /\
  mutate m k [] = Some [] /\
  valuenoise1d k f 0 mode = Some [] /\
  CrossOverSexualMutator.mutate (CrossOverSexualMutator.mk b f) k [] [] =
  Some [] /\
  CrossOverSexualMutator.mutate (CrossOverSexualMutator.mk m f) k [] [] =
  Some [].
Proof.
  intros Hf.
  assert (Hbm : forall k' : key R, BasicMutator.mutate b k' [] = Some []).
  { intros k'. unfold BasicMutator.mutate, BasicMutator.delta.
    destruct (split R k') as [k1 k2]. reflexivity. }
  assert (Ham : forall k' : key R,
             RandomlyAdaptiveMutator.mutate m k' [] = Some []).
  { intros k'.
    assert (Hs : RandomlyAdaptiveMutator.split_params m (vec []) =
                 Some (@vec Qc [], @vec Qc [])) by reflexivity.
    destruct (@deltas_total R m k' []) as [dmu [dsd [Hd _]]].
    destruct (@mutate_unfold R m k' [] _ _ dmu dsd Hs Hd) as [_ [_ [_ Hm]]].
    exact Hm. }
  assert (Hvn : forall (k' : key R) mode',
             valuenoise1d k' f 0 mode' = Some []).
  { intros k' mode'.
    destruct (@valuenoise1d_spec R k' f 0 mode' Hf) as [out [Ho [Hl _]]].
    destruct out; [exact Ho | discriminate]. }
  split; [reflexivity|]. split; [apply Hbm|].
  split; [reflexivity|]. split; [reflexivity|].
  split; [apply Ham|]. split; [apply Hvn|].
  split.
  - unfold CrossOverSexualMutator.mutate, CrossOverSexualMutator.recombine.
    destruct (split R k) as [ku k1]. cbn [length].
    cbn [CrossOverSexualMutator.n_frequencies]. rewrite Hvn.
    cbn [map ew length Nat.eqb map2].
    destruct (split R k1) as [ku2 k2].
    cbn [mutate BasicMutator_Mutator CrossOverSexualMutator.mutator].
    apply Hbm.
  - unfold CrossOverSexualMutator.mutate, CrossOverSexualMutator.recombine.
    destruct (split R k) as [ku k1]. cbn [length].
    cbn [CrossOverSexualMutator.n_frequencies]. rewrite Hvn.
    cbn [map ew length Nat.eqb map2].
    destruct (split R k1) as [ku2 k2].
    cbn [mutate RandomlyAdaptiveMutator_Mutator
         CrossOverSexualMutator.mutator].
    apply Ham.
Qed.

Lemma empty_genome_witness :
  (2 <= 16)%nat /\
  CrossOverSexualMutator.mutate
    (R := demo_random)
    (CrossOverSexualMutator.mk
       (RandomlyAdaptiveMutator.make (frac 1 10) None) 16)
    3%nat [] [] = Some [].
Proof.
  split; [lia|].
  exact (proj2 (proj2 (proj2 (proj2 (proj2 (proj2 (proj2
           (@empty_genome demo_random (BasicMutator.mk 1 1)
              (RandomlyAdaptiveMutator.make (frac 1 10) None) 16 3%nat
              "linear" ltac:(lia))))))))).
Defined.
